(** * storybook: a shallow embedding of storybook/storybook.go

    The Go package registers component constructors under a name, serves
    previews of them over HTTP and drives a three-stage build.  The
    development follows the source file top to bottom in its data
    (records for structs, [gmap] for Go maps, [string] for Go strings
    and byte buffers) and threads explicitly the two kinds of state the
    code mutates: the cell behind an [ObjectArg] pointer and the working
    directory of the build.

    Libraries the package calls ([encoding/json], [pathvars], [dirhash],
    the [%q] verb of [fmt]) are parameters of the definitions that use
    them; [strconv.ParseInt] and [path.Join] are written out.  Left out:
    logging, the CORS wrapper and the listener of
    [ServeHTTP] and [ListenAndServeWithContext], the unused
    [hasConfigChanged], and [FloatArg]. *)

From Stdlib Require Import ZArith Lia Ascii.
From stdpp Require Import gmap strings list pretty.

Set Warnings "-register-all".
Open Scope string_scope.
Open Scope Z_scope.

(** ** Strings as byte buffers *)

Definition newline : string := String "010"%char EmptyString.

(** ** Dynamic values

    A Go [interface{}] is a tagged union of the dynamic types the package
    handles: argument defaults and extracted arguments (strings, booleans,
    integers), control descriptors ([map[string]interface{}]), decoded
    objects and the results of calling a constructor. *)

(** Modelled from the spec: [templ.Component] lives in the root package of
    the repository; the spec describes it as an opaque value that produces
    its output bytes when asked to render. *)
Record Component := { Render : string }.

Inductive value :=
| VNil
| VBool (b : bool)
| VInt (i : Z)
| VString (s : string)
| VObject (fields : list (string * value))
| VComponent (c : Component).

(** ** SortedMap *)

Record SortedMap := {
  internal : gmap string value;
  keys : list string
}.

Definition NewSortedMap : SortedMap :=
  {| internal := ∅; keys := [] |}.

(** [sm.keys = append(sm.keys, key); sm.internal[key] = value].  The mutex
    only serialises callers and has no sequential content. *)
Definition Add (key : string) (v : value) (sm : SortedMap) : SortedMap :=
  {| internal := <[key := v]> (internal sm);
     keys := keys sm ++ [key] |}.

(** Reading a Go map at an absent key yields the zero value, here [nil]. *)
Definition index (m : gmap string value) (k : string) : value :=
  default VNil (m !! k).

Section Marshal.
(** [encoding/json] is taken as a parameter: the text it produces for a
    value, or [None] where it reports an error (unsupported type). *)
Variable marshal : value → option string.

(** [enc.Encode(v)] on an encoder writing to the buffer [b]: the encoding
    followed by a newline; on error nothing is written, and
    [MarshalJSON] drops the error. *)
Definition Encode (v : value) (b : string) : string :=
  match marshal v with
  | Some s => b +:+ s +:+ newline
  | None => b
  end.

Definition WriteRune (c : string) (b : string) : string := b +:+ c.

(** The body of [for i, k := range sm.keys]. *)
Fixpoint MarshalJSON_range (sm : SortedMap) (i : Z) (ks : list string)
    (b : string) : string :=
  match ks with
  | [] => b
  | k :: ks' =>
      let b := Encode (VString k) b in
      let b := WriteRune ":" b in
      let b := Encode (index (internal sm) k) b in
      let b := if i <? Z.of_nat (length (keys sm)) - 1
               then WriteRune "," b else b in
      MarshalJSON_range sm (i + 1) ks' b
  end.

Definition MarshalJSON (sm : SortedMap) : string :=
  let b := WriteRune "{" "" in
  let b := MarshalJSON_range sm 0 (keys sm) b in
  WriteRune "}" b.

(** *** What the loop leaves in the buffer, in closed form

    Read off the loop: per key, what [Encode] wrote for the key, a colon
    and what [Encode] wrote for the value, with commas in between. *)
Definition encoded (v : value) : string := Encode v "".

Definition member_text (kv : string * value) : string :=
  encoded (VString kv.1) +:+ ":" +:+ encoded kv.2.

Fixpoint join (sep : string) (l : list string) : string :=
  match l with
  | [] => ""
  | [s] => s
  | s :: l' => s +:+ sep +:+ join sep l'
  end.
End Marshal.

(** *** The object literal the spec describes

    Follows the spec's words: a JSON object literal whose members are
    listed in a given order.  A member is the JSON text of its key, a
    colon and the JSON text of its value, each followed by a newline (JSON
    allows white space there); members are separated by commas.  There is
    such a literal only when every key and value has a JSON text. *)
Definition member_json (marshal : value → option string)
    (kv : string * value) : option string :=
  ktext ← marshal (VString kv.1);
  vtext ← marshal kv.2;
  Some (ktext +:+ newline +:+ ":" +:+ vtext +:+ newline).

Definition object_json (marshal : value → option string)
    (members : list (string * value)) : option string :=
  texts ← mapM (member_json marshal) members;
  Some ("{" +:+ join "," texts +:+ "}").

(** A sequence of [Add] calls, first call first. *)
Definition adds (ops : list (string * value)) (sm : SortedMap) : SortedMap :=
  fold_left (λ sm kv, Add kv.1 kv.2 sm) ops sm.

(** The value the last [Add] of [k] in [ops] stored, if [k] was added. *)
Fixpoint last_added (k : string) (ops : list (string * value)) : option value :=
  match ops with
  | [] => None
  | (k', v) :: ops' =>
      match last_added k ops' with
      | Some w => Some w
      | None => if decide (k = k') then Some v else None
      end
  end.

(** ** Errors

    The error values the package builds with [fmt.Errorf], and the ones
    handed back by the operating system, by a child process or by a
    library.  [Error] is the method of Go's [error] interface. *)

Inductive error :=
| (* "templ-storybook: component %s expects %d argument, but %d were provided" *)
  errArgumentCount (operand : string) (expects provided : nat)
| (* "templ-storybook: function %s must return a templ.Component" *)
  errMustReturn (name : string)
| (* "templ-storybook: result of function %s is not a templ.Component" *)
  errNotComponent (name : string)
| (* fmt.Errorf(msg + ": %w", err) *)
  errWrap (msg : string) (err : error)
| (* an error produced outside the package *)
  errExternal (msg : string).

Fixpoint Error (e : error) : string :=
  match e with
  | errArgumentCount operand expects provided =>
      "templ-storybook: component " +:+ operand +:+ " expects "
      +:+ pretty expects +:+ " argument, but " +:+ pretty provided
      +:+ " were provided"
  | errMustReturn name =>
      "templ-storybook: function " +:+ name +:+ " must return a templ.Component"
  | errNotComponent name =>
      "templ-storybook: result of function " +:+ name +:+ " is not a templ.Component"
  | errWrap msg err => msg +:+ ": " +:+ Error err
  | errExternal msg => msg
  end.

(** ** Request-time state

    Serving a request can mutate the cell behind an [ObjectArg] pointer and
    can call the registered constructor; either may panic.  [M] threads the
    cells and a log of the constructor invocations, and stops at a panic. *)

Inductive outcome (A : Type) :=
| Returns (a : A)
| Panics.
Arguments Returns {A} a.
Arguments Panics {A}.

Record world := {
  cells : gmap nat value;          (* the Go values reachable through pointers *)
  invoked : list (list value)      (* argument lists of the constructor calls made *)
}.

Definition M (A : Type) : Type := world → outcome A * world.

Global Instance M_ret : MRet M := λ A a w, (Returns a, w).

Global Instance M_bind : MBind M := λ A B k m w,
  match m w with
  | (Returns a, w') => k a w'
  | (Panics, w') => (Panics, w')
  end.

Definition panic {A} : M A := λ w, (Panics, w).

(** ** url.Values *)

Definition url_Values := gmap string (list string).

(** [Values.Get]: the first value of the key, the empty string without one. *)
Definition Values_Get (q : url_Values) (key : string) : string :=
  match q !! key with
  | Some (v :: _) => v
  | _ => ""
  end.

(** ** strconv.ParseInt at base 10 and bit size 64

    After the Go standard library: an optional sign, then [ParseUint] over
    the bytes with its two overflow tests, then the signed range test.
    [uint64] arithmetic wraps at [2^64]. *)

Inductive NumError := ErrSyntax | ErrRange.

Definition wrap64 (n : Z) : Z := n mod 2 ^ 64.
(** Conversion to [int64]: the same 64 bits read in two's complement. *)
Definition int64 (n : Z) : Z := (n + 2 ^ 63) mod 2 ^ 64 - 2 ^ 63.
Definition maxUint64 : Z := 2 ^ 64 - 1.

Definition byte_of (c : ascii) : Z := Z.of_nat (nat_of_ascii c).

(** [lower(c) = c | ('x' - 'X')]. *)
Definition lower (c : Z) : Z := Z.lor c 32.

(** The [switch] of the loop body: the digit a byte stands for, [None] on
    the [default] branch. *)
Definition digit_val (c : ascii) : option Z :=
  let b := byte_of c in
  if (48 <=? b) && (b <=? 57) then Some (b - 48)
  else if (97 <=? lower b) && (lower b <=? 122) then Some (lower b - 97 + 10)
  else None.

Fixpoint ParseUint_loop (base cutoff maxVal : Z) (s : string) (n : Z)
    : Z * option NumError :=
  match s with
  | EmptyString => (n, None)
  | String c s' =>
      match digit_val c with
      | None => (0, Some ErrSyntax)
      | Some d =>
          if base <=? d then (0, Some ErrSyntax)
          else if cutoff <=? n then (maxVal, Some ErrRange)
          else
            let n := wrap64 (n * base) in
            let n1 := wrap64 (n + d) in
            if (n1 <? n) || (maxVal <? n1) then (maxVal, Some ErrRange)
            else ParseUint_loop base cutoff maxVal s' n1
      end
  end.

Definition ParseUint10 (s : string) : Z * option NumError :=
  match s with
  | EmptyString => (0, Some ErrSyntax)
  | _ => ParseUint_loop 10 (maxUint64 / 10 + 1) maxUint64 s 0
  end.

Definition ParseInt10 (s : string) : Z * option NumError :=
  match s with
  | EmptyString => (0, Some ErrSyntax)
  | String c0 rest =>
      let '(neg, s1) :=
        if decide (c0 = "+"%char) then (false, rest)
        else if decide (c0 = "-"%char) then (true, rest)
        else (false, s) in
      let '(un, err) := ParseUint10 s1 in
      match err with
      | Some ErrSyntax => (0, Some ErrSyntax)
      | _ =>
          let cutoff := 2 ^ 63 in
          if negb neg && (cutoff <=? un) then (cutoff - 1, Some ErrRange)
          else if neg && (cutoff <? un) then (- cutoff, Some ErrRange)
          else
            let n := int64 un in
            (if neg then int64 (- n) else n, None)
      end
  end.

(** ** Decimal numerals

    Follows the spec's words, "a base-10 signed integer": an optional sign
    and one or more decimal digits, and the integer they denote. *)

Definition is_digit (c : ascii) : bool :=
  (48 <=? byte_of c) && (byte_of c <=? 57).

Fixpoint digits_val (s : string) (acc : Z) : option Z :=
  match s with
  | EmptyString => Some acc
  | String c s' =>
      if is_digit c then digits_val s' (acc * 10 + (byte_of c - 48)) else None
  end.

Definition decimal (s : string) : option Z :=
  match s with
  | EmptyString => None
  | _ => digits_val s 0
  end.

Definition signed_decimal (s : string) : option Z :=
  match s with
  | EmptyString => None
  | String c rest =>
      if decide (c = "+"%char) then decimal rest
      else if decide (c = "-"%char) then Z.opp <$> decimal rest
      else decimal s
  end.

(** The nearest [int64], with the range error when it is not the integer
    itself. *)
Definition saturate (z : Z) : Z * option NumError :=
  if z <? - 2 ^ 63 then (- 2 ^ 63, Some ErrRange)
  else if 2 ^ 63 <=? z then (2 ^ 63 - 1, Some ErrRange)
  else (z, None).

(** ** json.Unmarshal

    [encoding/json] is a parameter here as well.  [json.Unmarshal] first
    checks that the whole input is valid JSON and returns the syntax error
    without touching the target; only then does it decode into the target,
    and a decoding error (a value of the wrong shape) can leave the target
    partly updated. *)

Section Unmarshal.
Variable checkValid : string → option error.
Variable decode : string → value → value * option error.

Definition Unmarshal (data : string) (target : value) : value * option error :=
  match checkValid data with
  | Some err => (target, Some err)
  | None => decode data target
  end.
End Unmarshal.

(** ** Arg and its constructors *)

Record Arg := {
  Name : string;
  Value : value;
  Control : value;
  Get : url_Values → M value
}.

Section ObjectArg.
Variable checkValid : string → option error.
Variable decode : string → value → value * option error.

(** [valuePtr] is the address of a cell.  [json.Unmarshal] writes through
    it and its error is dropped; [reflect.Indirect(...).Interface()]
    reads the cell back.  A pointer to no cell (nil) makes the
    reflection call panic. *)
Definition ObjectArg_Get (name : string) (valuePtr : nat) (q : url_Values)
    : M value :=
  λ w, match cells w !! valuePtr with
       | Some target =>
           let '(target', _) :=
             Unmarshal checkValid decode (Values_Get q name) target in
           (Returns target',
            {| cells := <[valuePtr := target']> (cells w);
               invoked := invoked w |})
       | None => panic w
       end.

Definition ObjectArg (name : string) (v : value) (valuePtr : nat) : Arg :=
  {| Name := name;
     Value := v;
     Control := VString "object";
     Get := ObjectArg_Get name valuePtr |}.
End ObjectArg.

Definition TextArg (name value : string) : Arg :=
  {| Name := name;
     Value := VString value;
     Control := VString "text";
     Get := λ q, mret (VString (Values_Get q name)) |}.

Definition BooleanArg (name : string) (value : bool) : Arg :=
  {| Name := name;
     Value := VBool value;
     Control := VString "boolean";
     Get := λ q, mret (VBool (bool_decide (Values_Get q name = "true"))) |}.

(** [*int] fields: [None] is the nil pointer. *)
Record IntArgConf := { Min : option Z; Max : option Z; Step : option Z }.

(** [int(i)] for an [int64] [i]; [int] is 64 bits wide on the platforms the
    package runs on, so the conversion keeps the value. *)
Definition int (i : Z) : Z := int64 i.

Definition IntArg_Get (name : string) (q : url_Values) : M value :=
  let '(i, _) := ParseInt10 (Values_Get q name) in
  mret (VInt (int i)).

Definition set_if (key : string) (p : option Z) (control : list (string * value))
    : list (string * value) :=
  match p with
  | Some n => control ++ [(key, VInt n)]
  | None => control
  end.

Definition IntArg (name : string) (value : Z) (conf : IntArgConf) : Arg :=
  let control := [("type", VString "number")] in
  let control := set_if "min" (Min conf) control in
  let control := set_if "max" (Max conf) control in
  let control := set_if "step" (Step conf) control in
  {| Name := name;
     Value := VInt value;
     Control := VObject control;
     Get := IntArg_Get name |}.

(** ** executeTemplate *)

(** What [reflect] sees of a constructor: the number of its parameters,
    whether given argument values are assignable to the types of its
    parameters, what the function does once it is entered (return its
    results, or panic), and the text [fmt] prints for the function value
    under [%s]. *)
Record GoFunc := {
  NumIn : nat;
  Assignable : list value → bool;
  Invoke : list value → outcome (list value);
  Sprint_s : string
}.

(** What [reflect.Value.Call] yields: it panics on an argument of the wrong
    type, before the function is entered. *)
Definition Call (fn : GoFunc) (argv : list value) : outcome (list value) :=
  if Assignable fn argv then Invoke fn argv else Panics.

(** [v.Call(argv)], with the log of the calls that entered the function. *)
Definition reflect_Call (fn : GoFunc) (argv : list value) : M (list value) :=
  λ w, if Assignable fn argv
       then (Invoke fn argv,
             {| cells := cells w; invoked := invoked w ++ [argv] |})
       else (Panics, w).

(** The pair [(output, err)] of the source, as a sum. *)
Definition executeTemplate (name : string) (fn : GoFunc) (values : list value)
    : M (Component + error) :=
  let argv_len := NumIn fn in
  if negb (argv_len =? length values)%nat then
    mret (inr (errArgumentCount (Sprint_s fn) argv_len (length values)))
  else
    let argv := values in
    result ← reflect_Call fn argv;
    if negb (length result =? 1)%nat then
      mret (inr (errMustReturn name))
    else
      match result with
      | VComponent output :: _ => mret (inl output)
      | _ => mret (inr (errNotComponent name))
      end.

(** ** HTTP handlers *)

Record Request := {
  URL_Path : string;
  URL_Query : url_Values         (* [r.URL.Query()] *)
}.

Record Response := {
  StatusCode : Z;
  Body : string
}.

Definition Handler : Type := Request → M Response.

(** [http.Error]: the status line, then the message and a newline. *)
Definition http_Error (msg : string) (code : Z) : Response :=
  {| StatusCode := code; Body := msg +:+ newline |}.

Definition StatusInternalServerError : Z := 500.
Definition StatusNotFound : Z := 404.
Definition StatusOK : Z := 200.

Definition http_NotFound : Response :=
  http_Error "404 page not found" StatusNotFound.

(** Modelled from the spec: [templ.Handler] lives in the root package of the
    repository; the spec says it streams the renderable component's output
    to the response body with a 200 status. *)
Definition templ_Handler (component : Component) : Handler :=
  λ _, mret {| StatusCode := StatusOK; Body := Render component |}.

Definition NewHandler (name : string) (f : GoFunc) (args : list Arg) : Handler :=
  λ r,
    let q := URL_Query r in
    argv ← mapM (λ arg, Get arg q) args;
    res ← executeTemplate name f argv;
    match res with
    | inr err => mret (http_Error (Error err) StatusInternalServerError)
    | inl component => templ_Handler component r
    end.

(** ** Story configuration *)

Record Story := {
  Story_Name : string;
  Story_Args : SortedMap
}.

Record Conf := {
  Title : string;
  Parameters : list (string * value);      (* [StoryParameters.Server] *)
  Args : SortedMap;
  ArgTypes : SortedMap;
  Stories : list Story
}.

(** The map built from [args] is dropped; the story gets a new, empty one. *)
Definition AddStory (name : string) (args : list Arg) (c : Conf) : Conf :=
  let m := fold_left (λ m arg, Add (Name arg) (Value arg) m) args NewSortedMap in
  {| Title := Title c;
     Parameters := Parameters c;
     Args := Args c;
     ArgTypes := ArgTypes c;
     Stories := Stories c ++ [{| Story_Name := name; Story_Args := NewSortedMap |}] |}.

Definition NewConf_arg (c : Conf) (arg : Arg) : Conf :=
  {| Title := Title c;
     Parameters := Parameters c;
     Args := Add (Name arg) (Value arg) (Args c);
     ArgTypes := Add (Name arg) (VObject [("control", Control arg)]) (ArgTypes c);
     Stories := Stories c |}.

Definition NewConf (title : string) (args : list Arg) : Conf :=
  let c := {| Title := title;
              Parameters := [("id", VString title)];
              Args := NewSortedMap;
              ArgTypes := NewSortedMap;
              Stories := [] |} in
  let c := fold_left NewConf_arg args c in
  AddStory "Default" [] c.

(** ** The registry *)

Record Storybook := {
  Path : string;
  RoutePrefix : string;
  Config : gmap string Conf;
  Handlers : gmap string Handler
}.

(** [New] without options; the logger, the static handler and the HTTP
    server it also sets up play no part below. *)
Definition New : Storybook :=
  {| Path := "./storybook-server";
     RoutePrefix := "";
     Config := ∅;
     Handlers := ∅ |}.

Definition AddComponent (name : string) (componentConstructor : GoFunc)
    (args : list Arg) (sh : Storybook) : Storybook :=
  let c := NewConf name args in
  let h := NewHandler name componentConstructor args in
  {| Path := Path sh;
     RoutePrefix := RoutePrefix sh;
     Config := <[name := c]> (Config sh);
     Handlers := <[name := h]> (Handlers sh) |}.

(** A registry filled by a sequence of [AddComponent] calls. *)
Definition register (components : list (string * GoFunc * list Arg))
    (sh : Storybook) : Storybook :=
  fold_left (λ sh c, AddComponent c.1.1 c.1.2 c.2 sh) components sh.

(** The constructor and descriptors last registered under [name]. *)
Fixpoint registered_as (name : string)
    (components : list (string * GoFunc * list Arg)) : option (GoFunc * list Arg) :=
  match components with
  | [] => None
  | (name', f, args) :: components' =>
      match registered_as name components' with
      | Some c => Some c
      | None => if decide (name = name') then Some (f, args) else None
      end
  end.

Section Preview.
(** [storybookPreviewMatcher.Extract] of the [pathvars] package, for the
    pattern [/storybook_preview/{name}]: the variables of a matching
    path, [None] without a match. *)
Variable Extract : string → option (gmap string string).

Definition previewHandler (sh : Storybook) : Handler :=
  λ r,
    match Extract (URL_Path r) with
    | None => mret http_NotFound
    | Some values =>
        match values !! "name" with
        | None => mret http_NotFound
        | Some name =>
            match Handlers sh !! name with
            | None => mret http_NotFound
            | Some h => h r
            end
        end
    end.
End Preview.

(** ** The build pipeline

    The working directory is state; what the operating system, the child
    processes and the caller's context answer is read from an [Env], one
    per run of [Build]. *)

Record Disk := {
  path_present : bool;                          (* [sh.Path] exists *)
  stories : option (gmap string string);        (* the stories directory: file ↦ content *)
  preview_js : option string;                   (* [<Path>/.storybook/preview.js] *)
  outside : gmap string string;                 (* story files written elsewhere: path ↦ content *)
  ran : list (list string)                      (* [cmd.Args] of the processes run *)
}.

Record Env := {
  Stat_fault : option error;            (* [os.Stat] fails for another reason than absence *)
  Mkdir_Path_fault : option error;
  LookPath_npx : option error;
  Run_init : option error;
  init_effect : Disk → Disk;            (* what [npx sb init] leaves on disk *)
  ctx_Err_1 : bool;                     (* [ctx.Err() != nil] after stage 1 *)
  HashDir_before_fault : option error;  (* a failure other than absence *)
  RemoveAll_fault : option error;
  Mkdir_stories_fault : option error;
  range_Config : list Conf;             (* the order in which [range sh.Config] visits *)
  Create_fault : string → option error;
  HashDir_after_fault : bool;
  WriteFile_fault : option error;
  ctx_Err_2 : bool;
  LookPath_npm : option error;
  Run_build : option error;
  build_effect : Disk → Disk;           (* what [npm run build-storybook] leaves on disk *)
  ctx_Err_3 : bool
}.

Definition set_path_present (b : bool) (d : Disk) : Disk :=
  {| path_present := b; stories := stories d;
     preview_js := preview_js d; outside := outside d; ran := ran d |}.

Definition set_stories (s : option (gmap string string)) (d : Disk) : Disk :=
  {| path_present := path_present d; stories := s;
     preview_js := preview_js d; outside := outside d; ran := ran d |}.

Definition set_preview_js (s : option string) (d : Disk) : Disk :=
  {| path_present := path_present d; stories := stories d;
     preview_js := s; outside := outside d; ran := ran d |}.

Definition set_outside (o : gmap string string) (d : Disk) : Disk :=
  {| path_present := path_present d; stories := stories d;
     preview_js := preview_js d; outside := o; ran := ran d |}.

Definition log_run (args : list string) (d : Disk) : Disk :=
  {| path_present := path_present d; stories := stories d;
     preview_js := preview_js d; outside := outside d; ran := ran d ++ [args] |}.

Definition installStorybook (env : Env) (d : Disk) : Disk * option error :=
  match Stat_fault env, path_present d with
  | None, true => (d, None)
  | stat, _ =>
      let mk :=
        match stat with
        | None => (* os.IsNotExist(err) *)
            match Mkdir_Path_fault env with
            | Some err =>
                inr (errWrap "templ-storybook: error creating @storybook/server directory" err)
            | None => inl (set_path_present true d)
            end
        | Some _ => inl d
        end in
      match mk with
      | inr err => (d, Some err)
      | inl d =>
          match LookPath_npx env with
          | Some err =>
              (d, Some (errWrap "templ-storybook: cannot install storybook, cannot find npx on the path, check that Node.js is installed" err))
          | None =>
              (init_effect env (log_run ["npx"; "sb"; "init"; "-t"; "server"] d),
               Run_init env)
          end
      end
  end.

Definition dq : string := String "034"%char EmptyString.

Definition previewJS : string :=
  newline +:+
  "// Customise fetch so that it uses a relative URL." +:+ newline +:+
  "const fetchStoryHtml = async (url, path, params, context) => {" +:+ newline +:+
  "  const qs = new URLSearchParams(params);" +:+ newline +:+
  "  const response = await fetch(" +:+ dq +:+ "/storybook_preview/" +:+ dq
    +:+ " + path + " +:+ dq +:+ "?" +:+ dq +:+ " + qs.toString());" +:+ newline +:+
  "  return response.text();" +:+ newline +:+
  "};" +:+ newline +:+
  newline +:+
  "export const parameters = {" +:+ newline +:+
  "  server: {" +:+ newline +:+
  "    url: " +:+ dq +:+ "http://localhost/storybook_preview" +:+ dq
    +:+ ", // Ignored by fetchStoryHtml." +:+ newline +:+
  "    fetchStoryHtml," +:+ newline +:+
  "  }," +:+ newline +:+
  "};" +:+ newline.

(** *** path.Join

    After the Go standard library.  [path.Join] puts a slash between its
    non-empty elements and cleans the result.  [path.Clean] is modelled by
    its documented rules on the slash-separated elements: empty elements
    and [.] are dropped, [..] removes the element before it, a [..] with
    nothing to remove is kept in a relative path and dropped in a rooted
    one, and the empty result is [.]. *)

Fixpoint has_slash (s : string) : bool :=
  match s with
  | EmptyString => false
  | String c s' => bool_decide (c = "/"%char) || has_slash s'
  end.

(** [strings.Split(s, "/")]. *)
Fixpoint split (s : string) : list string :=
  match s with
  | EmptyString => [EmptyString]
  | String c s' =>
      if decide (c = "/"%char) then EmptyString :: split s'
      else match split s' with
           | seg :: rest => String c seg :: rest
           | [] => [String c EmptyString]
           end
  end.

(** One element against the elements kept so far, last kept first. *)
Definition Clean_step (rooted : bool) (kept : list string) (seg : string)
    : list string :=
  if decide (seg = "") then kept
  else if decide (seg = ".") then kept
  else if decide (seg = "..") then
    match kept with
    | top :: below => if decide (top = "..") then seg :: kept else below
    | [] => if rooted then [] else [seg]
    end
  else seg :: kept.

Definition rooted (p : string) : bool :=
  match p with
  | String c _ => bool_decide (c = "/"%char)
  | EmptyString => false
  end.

Definition Clean (p : string) : string :=
  if decide (p = "") then "."
  else
    let kept := fold_left (Clean_step (rooted p)) (split p) [] in
    if rooted p then "/" +:+ join "/" (reverse kept)
    else match kept with
         | [] => "."
         | _ => join "/" (reverse kept)
         end.

Definition path_Join (elem : list string) : string :=
  let buf := fold_left (λ buf e, if decide (buf = "") then e
                                 else buf +:+ "/" +:+ e) elem "" in
  if decide (buf = "") then "" else Clean buf.

(** [strings.TrimPrefix] with the test that the prefix is there. *)
Fixpoint strip_prefix (p s : string) : option string :=
  match p, s with
  | EmptyString, _ => Some s
  | String a p', String b s' => if decide (a = b) then strip_prefix p' s' else None
  | String _ _, EmptyString => None
  end.

(** *** The stories directory and the files of the components *)

(** [path.Join(sh.Path, "stories")]. *)
Definition storiesDir (sh : Storybook) : string :=
  path_Join [Path sh; "stories"].

(** [path.Join(sh.Path, fmt.Sprintf("stories/%s.stories.json", c.Title))]. *)
Definition story_name (sh : Storybook) (c : Conf) : string :=
  path_Join [Path sh; "stories/" +:+ Title c +:+ ".stories.json"].

(** [os.Create(name)] for the file of a component, in a stories directory
    that holds no subdirectory (it has just been made).  A name directly
    inside the stories directory gives an empty file there, a name below
    it has no directory to go to, and any other name is a file outside
    the stories directory.  Names are compared as [path.Join] leaves
    them. *)
Definition os_Create (sh : Storybook) (env : Env) (name : string) (d : Disk)
    : Disk + error :=
  match Create_fault env name with
  | Some err => inr err
  | None =>
      match strip_prefix (storiesDir sh +:+ "/") name with
      | Some rel =>
          match stories d with
          | Some files =>
              if has_slash rel
              then inr (errExternal ("open " +:+ name
                                     +:+ ": no such file or directory"))
              else inl (set_stories (Some (<[rel := ""]> files)) d)
          | None => inr (errExternal ("open " +:+ name
                                      +:+ ": no such file or directory"))
          end
      | None => inl (set_outside (<[name := ""]> (outside d)) d)
      end
  end.

(** Writing [text] to the file [os.Create] opened under [name]. *)
Definition write_file (sh : Storybook) (name text : string) (d : Disk) : Disk :=
  match strip_prefix (storiesDir sh +:+ "/") name with
  | Some rel => set_stories (<[rel := text]> <$> stories d) d
  | None => set_outside (<[name := text]> (outside d)) d
  end.

Section Configure.
(** [dirhash.HashDir] with [dirhash.DefaultHash], on the files of a
    directory, [json.NewEncoder(f).Encode(c)] for a [Conf], and the text
    [fmt] prints for a string under [%q] ([strconv.Quote]). *)
Variable hash : gmap string string → string.
Variable encode_Conf : Conf → string + error.
Variable Quote : string → string.

(** The body of [for _, c := range sh.Config]. *)
Fixpoint write_stories (sh : Storybook) (env : Env) (cs : list Conf)
    (d : Disk) : Disk * option error :=
  match cs with
  | [] => (d, None)
  | c :: cs' =>
      let name := story_name sh c in
      match os_Create sh env name d with
      | inr err =>
          (d, Some (errWrap ("failed to create config file to " +:+ Quote name) err))
      | inl d =>
          match encode_Conf c with
          | inr err =>
              (d, Some (errWrap ("failed to write JSON config to " +:+ Quote name) err))
          | inl text =>
              write_stories sh env cs' (write_file sh name text d)
          end
      end
  end.

(** [HashDir]: the hash, or the empty string with an error. *)
Definition HashDir (fault : option error) (dir : option (gmap string string))
    : string * option (bool * error) :=   (* the flag is [os.IsNotExist] *)
  match fault, dir with
  | Some err, _ => ("", Some (false, err))
  | None, None => ("", Some (true, errExternal "no such file or directory"))
  | None, Some files => (hash files, None)
  end.

Definition configureStorybook (sh : Storybook) (env : Env) (d : Disk)
    : Disk * (bool * option error) :=
  let configHasChanged := false in
  let '(before, err) := HashDir (HashDir_before_fault env) (stories d) in
  match err with
  | Some (false, err) => (d, (configHasChanged, Some err))
  | _ =>
      match RemoveAll_fault env with
      | Some err => (d, (configHasChanged, Some err))
      | None =>
          let d := set_stories None d in
          match (if path_present d then Mkdir_stories_fault env
                 else Some (errExternal ("mkdir " +:+ storiesDir sh
                                         +:+ ": no such file or directory"))) with
          | Some err => (d, (configHasChanged, Some err))
          | None =>
              let d := set_stories (Some ∅) d in
              let '(d, err) := write_stories sh env (range_Config env) d in
              match err with
              | Some err => (d, (configHasChanged, Some err))
              | None =>
                  let '(after, _) :=
                    HashDir (if HashDir_after_fault env
                             then Some (errExternal "hash") else None)
                            (stories d) in
                  let configHasChanged := negb (bool_decide (before = after)) in
                  match WriteFile_fault env with
                  | Some err => (d, (configHasChanged, Some err))
                  | None =>
                      (set_preview_js (Some previewJS) d, (configHasChanged, None))
                  end
              end
          end
      end
  end.

Definition buildStorybook (env : Env) (d : Disk) : Disk * option error :=
  match LookPath_npm env with
  | Some err =>
      (d, Some (errWrap "templ-storybook: cannot run storybook, cannot find npm on the path, check that Node.js is installed" err))
  | None =>
      (build_effect env (log_run ["npm"; "run"; "build-storybook"] d),
       Run_build env)
  end.

Definition Build (sh : Storybook) (env : Env) (d : Disk) : Disk * option error :=
  let '(d, err) := installStorybook env d in
  match err with
  | Some _ => (d, err)
  | None =>
      if ctx_Err_1 env then (d, err) else
      let '(d, (configHasChanged, err)) := configureStorybook sh env d in
      match err with
      | Some _ => (d, err)
      | None =>
          if ctx_Err_2 env then (d, err) else
          let d :=
            if configHasChanged
            then (buildStorybook env d).1     (* the returned error is dropped *)
            else d in
          if ctx_Err_3 env then (d, err) else
          (d, err)
      end
  end.
End Configure.

(** The files a configuration pass writes, following the spec's words: one
    file per registered component, with a file name derived from its title
    and holding its serialized configuration. *)
Definition stories_written (encode_Conf : Conf → string + error)
    (cs : list Conf) : gmap string string :=
  list_to_map
    ((λ c, (Title c +:+ ".stories.json",
            match encode_Conf c with inl text => text | inr _ => "" end)) <$> cs).

(** ** Sample library instances

    Small stand-ins for the libraries taken as parameters, used to run the
    definitions on concrete inputs. *)

(** [encoding/json] on the scalars whose text needs no escaping. *)
Definition marshal_plain (v : value) : option string :=
  match v with
  | VNil => Some "null"
  | VBool true => Some "true"
  | VBool false => Some "false"
  | VInt i => Some (pretty i)
  | VString s => Some (dq +:+ s +:+ dq)
  | _ => None
  end.

(** A constructor [func button(text string) templ.Component]. *)
Definition button : GoFunc :=
  {| NumIn := 1;
     Assignable := λ argv,
       match argv with [VString _] => true | _ => false end;
     Invoke := λ argv,
       match argv with
       | [VString text] =>
           Returns [VComponent {| Render := "<button>" +:+ text +:+ "</button>" |}]
       | _ => Panics
       end;
     Sprint_s := "%!s(func(string) templ.Component=0x6f2a40)" |}.

(** A function of two results, and one whose single result cannot render. *)
Definition two_results : GoFunc :=
  {| NumIn := 0;
     Assignable := λ argv, match argv with [] => true | _ => false end;
     Invoke := λ _, Returns [VComponent {| Render := "" |}; VNil];
     Sprint_s := "%!s(func() (templ.Component, error)=0x6f2b00)" |}.

Definition returns_string : GoFunc :=
  {| NumIn := 0;
     Assignable := λ argv, match argv with [] => true | _ => false end;
     Invoke := λ _, Returns [VString "text"];
     Sprint_s := "%!s(func() string=0x6f2bc0)" |}.

(** A matcher for [/storybook_preview/{name}]: the rest of the path after
    the fixed segment, when it is one segment. *)
Definition Extract_preview (p : string) : option (gmap string string) :=
  let fixed := "/storybook_preview/" in
  let rest := String.substring (String.length fixed) (String.length p - String.length fixed) p in
  if String.prefix fixed p && negb (has_slash rest) && negb (bool_decide (rest = ""))
  then Some {[ "name" := rest ]}
  else None.

Definition world0 : world := {| cells := ∅; invoked := [] |}.

(** [json.Unmarshal] for a target of type [int], on the inputs that are an
    integer literal, [null], or no JSON at all.  (On other valid JSON the
    library reports a type error instead of a syntax error, with the same
    effect: the target keeps its value.) *)
Definition is_json_space (c : ascii) : bool :=
  bool_decide (c = " "%char) || bool_decide (c = "009"%char)
  || bool_decide (c = "010"%char) || bool_decide (c = "013"%char).

Fixpoint trim_left (s : string) : string :=
  match s with
  | String c s' => if is_json_space c then trim_left s' else s
  | EmptyString => s
  end.

Definition trim (s : string) : string :=
  String.rev (trim_left (String.rev (trim_left s))).

Fixpoint all_digits (s : string) : bool :=
  match s with
  | EmptyString => true
  | String c s' => is_digit c && all_digits s'
  end.

(** [-? ( 0 | [1-9][0-9]* )] *)
Definition json_int_literal (s : string) : bool :=
  let body := match s with
              | String c r => if decide (c = "-"%char) then r else s
              | EmptyString => s
              end in
  match body with
  | EmptyString => false
  | String c r =>
      if decide (c = "0"%char) then bool_decide (r = "")
      else is_digit c && all_digits r
  end.

Definition checkValid_int (data : string) : option error :=
  let t := trim data in
  if bool_decide (t = "null") || json_int_literal t then None
  else Some (errExternal "invalid character looking for beginning of value").

Definition decode_int (data : string) (target : value) : value * option error :=
  let t := trim data in
  if bool_decide (t = "null") then (target, None)
  else match ParseInt10 t with
       | (n, None) => (VInt n, None)
       | _ => (target,
               Some (errExternal "json: cannot unmarshal number into Go value of type int"))
       end.

(** A directory hash and a [Conf] encoder to run the pipeline with. *)
Definition hash_files (files : gmap string string) : string :=
  "h1:" +:+ foldr (λ kv acc, kv.1 +:+ "=" +:+ kv.2 +:+ ";" +:+ acc) ""
                  (map_to_list files).

(** [strconv.Quote] on text that needs no escaping. *)
Definition quote_plain (s : string) : string := dq +:+ s +:+ dq.

Definition encode_title (c : Conf) : string + error :=
  inl ("{" +:+ dq +:+ "title" +:+ dq +:+ ":" +:+ dq +:+ Title c +:+ dq +:+ "}"
       +:+ newline).

(** An environment in which nothing fails and nothing is cancelled; the
    child processes leave the modelled files alone. *)
Definition quiet (visit : list Conf) : Env :=
  {| Stat_fault := None; Mkdir_Path_fault := None; LookPath_npx := None;
     Run_init := None; init_effect := λ d, d; ctx_Err_1 := false;
     HashDir_before_fault := None; RemoveAll_fault := None;
     Mkdir_stories_fault := None; range_Config := visit;
     Create_fault := λ _, None; HashDir_after_fault := false;
     WriteFile_fault := None; ctx_Err_2 := false;
     LookPath_npm := None; Run_build := None; build_effect := λ d, d;
     ctx_Err_3 := false |}.

(** The same, except that [npm run build-storybook] exits with an error. *)
Definition build_fails (visit : list Conf) : Env :=
  {| Stat_fault := None; Mkdir_Path_fault := None; LookPath_npx := None;
     Run_init := None; init_effect := λ d, d; ctx_Err_1 := false;
     HashDir_before_fault := None; RemoveAll_fault := None;
     Mkdir_stories_fault := None; range_Config := visit;
     Create_fault := λ _, None; HashDir_after_fault := false;
     WriteFile_fault := None; ctx_Err_2 := false;
     LookPath_npm := None; Run_build := Some (errExternal "exit status 1");
     build_effect := λ d, d; ctx_Err_3 := false |}.

Definition button_book : Storybook :=
  register [("button", button, [TextArg "text" "Click"])] New.

Definition button_conf : Conf := NewConf "button" [TextArg "text" "Click"].

Definition installed : Disk :=
  {| path_present := true; stories := None; preview_js := None;
     outside := ∅; ran := [] |}.

(** A constructor [func greeting(first, last string) templ.Component]. *)
Definition greeting : GoFunc :=
  {| NumIn := 2;
     Assignable := λ argv,
       match argv with [VString _; VString _] => true | _ => false end;
     Invoke := λ argv,
       match argv with
       | [VString first; VString last] =>
           Returns [VComponent {| Render := "Hello, " +:+ first +:+ " " +:+ last |}]
       | _ => Panics
       end;
     Sprint_s := "%!s(func(string, string) templ.Component=0x6f2c80)" |}.

(** A working directory that does not exist yet, and environments with one
    fault each. *)
Definition fresh : Disk :=
  {| path_present := false; stories := None; preview_js := None;
     outside := ∅; ran := [] |}.

Definition npx_missing : Env :=
  {| Stat_fault := None; Mkdir_Path_fault := None;
     LookPath_npx := Some (errExternal "exec: npx: executable file not found in $PATH");
     Run_init := None; init_effect := λ d, d; ctx_Err_1 := false;
     HashDir_before_fault := None; RemoveAll_fault := None;
     Mkdir_stories_fault := None; range_Config := [];
     Create_fault := λ _, None; HashDir_after_fault := false;
     WriteFile_fault := None; ctx_Err_2 := false;
     LookPath_npm := None; Run_build := None; build_effect := λ d, d;
     ctx_Err_3 := false |}.

Definition cancelled_after_configure (visit : list Conf) : Env :=
  {| Stat_fault := None; Mkdir_Path_fault := None; LookPath_npx := None;
     Run_init := None; init_effect := λ d, d; ctx_Err_1 := false;
     HashDir_before_fault := None; RemoveAll_fault := None;
     Mkdir_stories_fault := None; range_Config := visit;
     Create_fault := λ _, None; HashDir_after_fault := false;
     WriteFile_fault := None; ctx_Err_2 := true;
     LookPath_npm := None; Run_build := None; build_effect := λ d, d;
     ctx_Err_3 := false |}.

Definition create_fails (bad : string) (visit : list Conf) : Env :=
  {| Stat_fault := None; Mkdir_Path_fault := None; LookPath_npx := None;
     Run_init := None; init_effect := λ d, d; ctx_Err_1 := false;
     HashDir_before_fault := None; RemoveAll_fault := None;
     Mkdir_stories_fault := None; range_Config := visit;
     Create_fault := λ name, if bool_decide (name = bad)
                             then Some (errExternal "permission denied")
                             else None;
     HashDir_after_fault := false;
     WriteFile_fault := None; ctx_Err_2 := false;
     LookPath_npm := None; Run_build := None; build_effect := λ d, d;
     ctx_Err_3 := false |}.

Definition card_conf : Conf :=
  NewConf "card" [TextArg "title" "Hello"; BooleanArg "open" true].

Definition two_book : Storybook :=
  register [("button", button, [TextArg "text" "Click"]);
            ("card", button, [TextArg "title" "Hello"; BooleanArg "open" true])] New.




(** A stories directory left over from an earlier configuration. *)
Definition stale : Disk :=
  {| path_present := true;
     stories := Some {[ "old.stories.json" := "{}" ]};
     preview_js := None; outside := ∅; ran := [] |}.

(** * Properties *)

(** ** Strings *)

Lemma string_app_cons (a : ascii) (s t : string) :
  String a s +:+ t = String a (s +:+ t).
Proof. reflexivity. Qed.

Lemma string_app_nil_r (s : string) : s +:+ "" = s.
Proof.
  induction s as [|a s IH]; [reflexivity|].
  by rewrite string_app_cons, IH.
Qed.

Lemma string_app_assoc (s t u : string) : (s +:+ t) +:+ u = s +:+ t +:+ u.
Proof.
  induction s as [|a s IH]; [reflexivity|].
  by rewrite !string_app_cons, IH.
Qed.

Lemma string_length_app (s t : string) :
  String.length (s +:+ t) = (String.length s + String.length t)%nat.
Proof.
  induction s as [|a s IH]; [done|].
  rewrite string_app_cons. cbn. by rewrite IH.
Qed.

Lemma string_app_inj_r (u s1 s2 : string) : s1 +:+ u = s2 +:+ u → s1 = s2.
Proof.
  revert s2. induction s1 as [|a s1 IH]; intros [|b s2] Heq; [done| | |].
  - apply (f_equal String.length) in Heq.
    rewrite !string_length_app in Heq. cbn in Heq. lia.
  - apply (f_equal String.length) in Heq.
    rewrite !string_length_app in Heq. cbn in Heq. lia.
  - rewrite !string_app_cons in Heq. injection Heq as -> Heq.
    f_equal. by apply IH.
Qed.

(** ** SortedMap *)

Lemma adds_snoc ops kv sm :
  adds (ops ++ [kv]) sm = Add kv.1 kv.2 (adds ops sm).
Proof. unfold adds. by rewrite fold_left_app. Qed.

Lemma keys_adds ops sm : keys (adds ops sm) = (keys sm ++ ops.*1)%list.
Proof.
  revert sm. induction ops as [|[k v] ops IH]; intros sm; simpl.
  - by rewrite app_nil_r.
  - unfold adds in *. simpl. rewrite IH. simpl. by rewrite <- app_assoc.
Qed.

Lemma internal_adds ops sm k :
  internal (adds ops sm) !! k =
  match last_added k ops with
  | Some w => Some w
  | None => internal sm !! k
  end.
Proof.
  revert sm. induction ops as [|[k' v] ops IH]; intros sm; [done|].
  unfold adds in *. simpl. rewrite IH.
  destruct (last_added k ops); [done|]. simpl.
  destruct (decide (k = k')) as [->|Hne].
  - by rewrite lookup_insert_eq.
  - by rewrite lookup_insert_ne.
Qed.

Lemma last_added_elem k ops : is_Some (last_added k ops) ↔ k ∈ ops.*1.
Proof.
  induction ops as [|[k' v] ops IH]; simpl.
  - split; [intros [? ?]; done | intros H; by apply elem_of_nil in H].
  - rewrite elem_of_cons, <- IH.
    destruct (last_added k ops) as [w|].
    + split; [intros _; right; eauto | eauto].
    + destruct (decide (k = k')) as [->|Hne].
      * split; [by left | eauto].
      * split; [by intros [? ?] | intros [?|[? ?]]; done].
Qed.

Section MarshalFacts.
Variable marshal : value → option string.

Lemma Encode_app v b : Encode marshal v b = b +:+ encoded marshal v.
Proof.
  unfold encoded, Encode. destruct (marshal v); [done|].
  by rewrite string_app_nil_r.
Qed.

Lemma member_text_eq k v :
  member_text marshal (k, v) =
  encoded marshal (VString k) +:+ ":" +:+ encoded marshal v.
Proof. reflexivity. Qed.

Lemma join_cons2 sep s t l :
  join sep (s :: t :: l) = s +:+ sep +:+ join sep (t :: l).
Proof. reflexivity. Qed.

(** The loop writes, after what the buffer holds, the members of the
    remaining keys: commas follow all but the last key of the map. *)
Lemma MarshalJSON_range_join sm done_ ks b :
  keys sm = (done_ ++ ks)%list →
  MarshalJSON_range marshal sm (Z.of_nat (length done_)) ks b =
  b +:+ join "," (member_text marshal <$> ((λ k, (k, index (internal sm) k)) <$> ks)).
Proof.
  revert done_ b. induction ks as [|k ks IH]; intros done_ b Hk.
  - simpl. by rewrite string_app_nil_r.
  - cbn [MarshalJSON_range].
    replace (Z.of_nat (length done_) + 1) with (Z.of_nat (length (done_ ++ [k])%list))
      by (rewrite length_app; simpl; lia).
    rewrite IH by (by rewrite <- app_assoc).
    rewrite Hk, length_app. cbn [length].
    unfold WriteRune. rewrite !Encode_app.
    destruct ks as [|k' ks]; cbn [length];
      match goal with
      | |- context [?a <? ?c] => destruct (Z.ltb_spec a c); try lia
      end.
    + cbn [fmap list_fmap join].
      by rewrite member_text_eq, string_app_nil_r, !string_app_assoc.
    + rewrite !fmap_cons, join_cons2, (member_text_eq k).
      by rewrite !string_app_assoc.
Qed.

Lemma MarshalJSON_members sm :
  MarshalJSON marshal sm =
  "{" +:+ join "," (member_text marshal
                      <$> ((λ k, (k, index (internal sm) k)) <$> keys sm))
      +:+ "}".
Proof.
  unfold MarshalJSON, WriteRune.
  rewrite (MarshalJSON_range_join sm [] (keys sm)) by done.
  by rewrite !string_app_assoc.
Qed.
(** Where every key and value has a JSON text, the loop's members are the
    members of the object literal. *)
Lemma member_json_text kv :
  is_Some (marshal (VString kv.1)) → is_Some (marshal kv.2) →
  member_json marshal kv = Some (member_text marshal kv).
Proof.
  intros [ktext Hk] [vtext Hv]. unfold member_json, member_text, encoded, Encode.
  rewrite Hk, Hv. cbn. f_equal.
  change ("" +:+ ktext +:+ newline) with (ktext +:+ newline).
  change ("" +:+ vtext +:+ newline) with (vtext +:+ newline).
  by rewrite !string_app_assoc.
Qed.

Lemma mapM_member_json members :
  Forall (λ kv, is_Some (marshal (VString kv.1)) ∧ is_Some (marshal kv.2)) members →
  mapM (member_json marshal) members = Some (member_text marshal <$> members).
Proof.
  induction 1 as [|kv members [Hk Hv] _ IH]; [done|].
  cbn. rewrite member_json_text by done. cbn. by rewrite IH.
Qed.

(** A member of an object literal ends with a newline, and so does a
    comma-separated list of members. *)
Lemma member_json_newline kv text :
  member_json marshal kv = Some text → ∃ front, text = front +:+ newline.
Proof.
  unfold member_json. destruct (marshal (VString kv.1)) as [ktext|]; [|done].
  destruct (marshal kv.2) as [vtext|]; [|done]. cbn. intros [= <-].
  exists (ktext +:+ newline +:+ ":" +:+ vtext). by rewrite !string_app_assoc.
Qed.

Lemma join_newline texts :
  texts ≠ [] → Forall (λ text, ∃ front, text = front +:+ newline) texts →
  ∃ front, join "," texts = front +:+ newline.
Proof.
  intros Hne Hall. induction Hall as [|text texts [front ->] Hall IH]; [done|].
  destruct texts as [|text' texts]; [by exists front|].
  destruct IH as [front' Hfront']; [done|].
  rewrite join_cons2, Hfront'.
  exists ((front +:+ newline) +:+ "," +:+ front'). by rewrite !string_app_assoc.
Qed.
End MarshalFacts.

Lemma last_added_in k w ops : last_added k ops = Some w → (k, w) ∈ ops.
Proof.
  induction ops as [|[k' v] ops IH]; [done|]. cbn.
  destruct (last_added k ops) as [w'|].
  - intros [= ->]. right. by apply IH.
  - destruct (decide (k = k')) as [->|]; [|done]. intros [= ->]. by left.
Qed.

Lemma string_last_inj (s t : string) (a b : ascii) :
  s +:+ String a "" = t +:+ String b "" → a = b.
Proof.
  revert t. induction s as [|c s IH]; intros [|c' t] Heq.
  - by injection Heq.
  - apply (f_equal String.length) in Heq.
    rewrite !string_length_app in Heq. cbn in Heq. lia.
  - apply (f_equal String.length) in Heq.
    rewrite !string_length_app in Heq. cbn in Heq. lia.
  - rewrite !string_app_cons in Heq. injection Heq as _ Heq. by apply (IH t).
Qed.

(** C1, as stated, fails: a value that [encoding/json] cannot encode is
    written as nothing, without an error, and what [MarshalJSON] returns
    is then not a JSON object literal, of these or of any other members. *)
Lemma MarshalJSON_unencodable_not_literal :
  let sm := adds [("view", VComponent {| Render := "" |})] NewSortedMap in
  marshal_plain (VComponent {| Render := "" |}) = None
  ∧ MarshalJSON marshal_plain sm = "{" +:+ dq +:+ "view" +:+ dq +:+ newline +:+ ":}"
  ∧ ¬ ∃ members,
        object_json marshal_plain members = Some (MarshalJSON marshal_plain sm).
Proof.
  cbn zeta. split; [done|]. split; [by vm_compute|].
  intros [members Hlit].
  assert (MarshalJSON marshal_plain
            (adds [("view", VComponent {| Render := "" |})] NewSortedMap) =
          ("{" +:+ dq +:+ "view" +:+ dq +:+ newline) +:+ String ":"%char "" +:+ "}")
    as Hout by (by vm_compute).
  rewrite Hout in Hlit. clear Hout. unfold object_json in Hlit.
  destruct (mapM (member_json marshal_plain) members) as [texts|] eqn:Htexts;
    [|done].
  cbv [mbind option_bind] in Hlit. injection Hlit as Hlit.
  apply mapM_Some in Htexts.
  destruct texts as [|text texts]; [by vm_compute in Hlit|].
  destruct (join_newline (text :: texts)) as [front Hfront]; [done| |].
  { clear Hlit. induction Htexts as [|kv t ms ts Hkv _ IH]; [done|].
    constructor; [by eapply member_json_newline | done]. }
  rewrite Hfront in Hlit.
  assert ("010"%char = ":"%char) as Hlast; [|done].
  apply (string_last_inj front (dq +:+ "view" +:+ dq +:+ newline)).
  apply (string_app_inj_r "}"). exact Hlit.
Qed.

(** C1, amended. For every sequence of [Add] calls on a new [SortedMap],
    repeated keys included, whose keys and values [encoding/json] can
    encode, [MarshalJSON] returns the JSON object literal whose members
    are, in this order, one per [Add] call and under that call's key; the
    value shown under a key is the one last stored for it. *)
Theorem MarshalJSON_insertion_order (marshal : value → option string)
    (ops : list (string * value))
    (Hkeys : Forall (λ kv, is_Some (marshal (VString kv.1))) ops)
    (Hvalues : Forall (λ kv, is_Some (marshal kv.2)) ops) :
  object_json marshal ((λ kv, (kv.1, default VNil (last_added kv.1 ops))) <$> ops)
  = Some (MarshalJSON marshal (adds ops NewSortedMap)).
Proof.
  unfold object_json. rewrite mapM_member_json.
  - cbv [mbind option_bind]. f_equal. rewrite MarshalJSON_members, keys_adds.
    cbn [keys NewSortedMap app].
    replace ((λ k, (k, index (internal (adds ops NewSortedMap)) k)) <$> ops.*1)
      with ((λ kv : string * value, (kv.1, default VNil (last_added kv.1 ops))) <$> ops);
      [done|].
    rewrite <- list_fmap_compose. apply list_fmap_ext.
    intros i [k v] _. cbn. unfold index. f_equal.
    rewrite internal_adds. by destruct (last_added k ops).
  - apply Forall_fmap, Forall_forall. intros [k v] Hin. cbn.
    split; [by apply (proj1 (Forall_forall _ _) Hkeys (k, v))|].
    destruct (last_added k ops) as [w|] eqn:Hw.
    + apply last_added_in in Hw.
      by apply (proj1 (Forall_forall _ _) Hvalues (k, w)).
    + exfalso. assert (is_Some (last_added k ops)) as [? ?]; [|congruence].
      apply last_added_elem. apply list_elem_of_fmap. by exists (k, v).
Qed.

Lemma MarshalJSON_insertion_order_witness :
  object_json marshal_plain [("b", VInt 3); ("a", VInt 2); ("b", VInt 3)]
  = Some (MarshalJSON marshal_plain
            (adds [("b", VInt 1); ("a", VInt 2); ("b", VInt 3)] NewSortedMap)).
Proof.
  apply (MarshalJSON_insertion_order marshal_plain
           [("b", VInt 1); ("a", VInt 2); ("b", VInt 3)]);
    repeat constructor; vm_compute; eauto.
Defined.

Example MarshalJSON_repeated_key :
  MarshalJSON marshal_plain
    (Add "b" (VInt 3) (Add "a" (VInt 2) (Add "b" (VInt 1) NewSortedMap))) =
  "{" +:+ dq +:+ "b" +:+ dq +:+ newline +:+ ":3" +:+ newline +:+ ","
      +:+ dq +:+ "a" +:+ dq +:+ newline +:+ ":2" +:+ newline +:+ ","
      +:+ dq +:+ "b" +:+ dq +:+ newline +:+ ":3" +:+ newline +:+ "}".
Proof. vm_compute. reflexivity. Qed.

(** C9, as stated, fails: adding a key twice leaves it twice in [keys]. *)
Lemma SortedMap_keys_repeat :
  ¬ (let sm := adds [("a", VInt 1); ("a", VInt 2)] NewSortedMap in
     NoDup (keys sm)
     ∧ keys sm = ["a"; "a"]
     ∧ ∀ k, k ∈ keys sm ↔ is_Some (internal sm !! k)).
Proof.
  cbn. intros [Hnd _]. apply NoDup_cons_1_1 in Hnd. apply Hnd. by left.
Qed.

(** C9, amended. For every [SortedMap] reached from a new one by a sequence
    of [Add] calls, [keys] is the sequence of the added keys in call order,
    a key is in [keys] exactly when the values mapping has an entry for it,
    and [keys] is free of duplicates exactly when no key was added twice. *)
Theorem SortedMap_invariant (ops : list (string * value)) :
  let sm := adds ops NewSortedMap in
  keys sm = ops.*1
  ∧ (∀ k, k ∈ keys sm ↔ is_Some (internal sm !! k))
  ∧ (NoDup (keys sm) ↔ NoDup ops.*1).
Proof.
  cbn zeta. rewrite keys_adds. cbn [keys NewSortedMap app].
  split; [done|]. split; [|done].
  intros k. rewrite internal_adds, <- last_added_elem. cbn.
  rewrite lookup_empty. by destruct (last_added k ops).
Qed.

(** C10. [AddStory name args] appends exactly one story; it carries the
    given name and a new, empty map whatever [args] holds, and nothing
    else of the configuration changes. *)
Theorem AddStory_empty_args (name : string) (args : list Arg) (c : Conf) :
  Stories (AddStory name args c) =
    (Stories c ++ [{| Story_Name := name; Story_Args := NewSortedMap |}])%list
  ∧ keys NewSortedMap = []
  ∧ internal NewSortedMap = ∅
  ∧ (∀ marshal, MarshalJSON marshal NewSortedMap = "{}")
  ∧ Title (AddStory name args c) = Title c
  ∧ Args (AddStory name args c) = Args c
  ∧ ArgTypes (AddStory name args c) = ArgTypes c.
Proof. repeat split. Qed.

Example AddStory_drops_args :
  Story_Args <$>
    Stories (AddStory "Primary" [TextArg "text" "Hi"] (NewConf "button" [])) =
  [NewSortedMap; NewSortedMap].
Proof. reflexivity. Qed.

(** ** executeTemplate *)

Lemma executeTemplate_mismatch name fn values w :
  NumIn fn ≠ length values →
  executeTemplate name fn values w =
  (Returns (inr (errArgumentCount (Sprint_s fn) (NumIn fn) (length values))), w).
Proof.
  intros Hne. unfold executeTemplate.
  destruct (Nat.eqb_spec (NumIn fn) (length values)); [done|]. reflexivity.
Qed.

Lemma Call_Returns fn argv results :
  Call fn argv = Returns results →
  Assignable fn argv = true ∧ Invoke fn argv = Returns results.
Proof. unfold Call. by destruct (Assignable fn argv). Qed.

Lemma executeTemplate_call name fn values w :
  NumIn fn = length values →
  Assignable fn values = true →
  executeTemplate name fn values w =
  let w' := {| cells := cells w; invoked := (invoked w ++ [values])%list |} in
  match Call fn values with
  | Panics => (Panics, w')
  | Returns [VComponent output] => (Returns (inl output), w')
  | Returns [_] => (Returns (inr (errNotComponent name)), w')
  | Returns _ => (Returns (inr (errMustReturn name)), w')
  end.
Proof.
  intros Heq Hok. unfold executeTemplate, Call.
  destruct (Nat.eqb_spec (NumIn fn) (length values)); [|done]. cbn.
  unfold mbind, M_bind, reflect_Call. rewrite Hok.
  destruct (Invoke fn values) as [[|v [|v' results]]|]; try reflexivity;
    destruct v; reflexivity.
Qed.

Lemma executeTemplate_rejected name fn values w :
  NumIn fn = length values →
  Assignable fn values = false →
  executeTemplate name fn values w = (Panics, w).
Proof.
  intros Heq Hno. unfold executeTemplate.
  destruct (Nat.eqb_spec (NumIn fn) (length values)); [|done]. cbn.
  unfold mbind, M_bind, reflect_Call. by rewrite Hno.
Qed.

(** C2, on the code. With no argument for the one-parameter constructor
    [button], the call is refused without invoking the constructor and the
    error carries both counts; but it is the same error whatever the
    component is called: the [%s] operand is the function value, not the
    name. *)
Theorem executeTemplate_arity_error_omits_name (name : string) :
  executeTemplate name button [] world0 =
  (Returns (inr (errArgumentCount (Sprint_s button) 1 0)), world0)
  ∧ Error (errArgumentCount (Sprint_s button) 1 0) =
    "templ-storybook: component %!s(func(string) templ.Component=0x6f2a40) expects 1 argument, but 0 were provided".
Proof. split; reflexivity. Qed.

(** C3. When the number of values matches the constructor's parameters and
    the call returns, [executeTemplate] succeeds exactly when the results
    are a single renderable value, which it returns; any other list of
    results gives one of the two errors that name the component. *)
Theorem executeTemplate_signature (name : string) (fn : GoFunc)
    (values results : list value) (w : world)
    (Harity : NumIn fn = length values)
    (Hcall : Call fn values = Returns results) :
  let w' := {| cells := cells w; invoked := (invoked w ++ [values])%list |} in
  (∀ output, executeTemplate name fn values w = (Returns (inl output), w')
             ↔ results = [VComponent output])
  ∧ ((∀ output, results ≠ [VComponent output]) →
     executeTemplate name fn values w =
       (Returns (inr (if decide (length results = 1%nat)
                      then errNotComponent name
                      else errMustReturn name)), w')).
Proof.
  cbn zeta. destruct (Call_Returns _ _ _ Hcall) as [Hok _].
  rewrite executeTemplate_call by done. rewrite Hcall. cbn zeta.
  destruct results as [|v [|v' results]]; try destruct v;
    (split;
     [ intros output; split; intros H;
       first [discriminate H | by inversion H]
     | intros Hno; try reflexivity ]).
  by destruct (Hno c).
Qed.

Lemma executeTemplate_signature_witness :
  (∀ output, executeTemplate "button" button [VString "Hi"] world0 =
     (Returns (inl output),
      {| cells := ∅; invoked := [[VString "Hi"]] |})
     ↔ [VComponent {| Render := "<button>Hi</button>" |}] = [VComponent output])
  ∧ executeTemplate "pair" two_results [] world0 =
      (Returns (inr (errMustReturn "pair")), {| cells := ∅; invoked := [[]] |})
  ∧ executeTemplate "plain" returns_string [] world0 =
      (Returns (inr (errNotComponent "plain")), {| cells := ∅; invoked := [[]] |}).
Proof.
  split; [|split].
  - apply (executeTemplate_signature "button" button [VString "Hi"]
             [VComponent {| Render := "<button>Hi</button>" |}] world0);
      reflexivity.
  - apply (executeTemplate_signature "pair" two_results []
             [VComponent {| Render := "" |}; VNil] world0);
      [reflexivity | reflexivity | intros output; discriminate].
  - apply (executeTemplate_signature "plain" returns_string []
             [VString "text"] world0);
      [reflexivity | reflexivity | intros output; discriminate].
Defined.

(** ** The preview route *)

Lemma Handlers_register components sh name :
  Handlers (register components sh) !! name =
  match registered_as name components with
  | Some (f, args) => Some (NewHandler name f args)
  | None => Handlers sh !! name
  end.
Proof.
  revert sh. induction components as [|[[name' f] args] components IH];
    intros sh; [done|].
  unfold register in *. cbn [fold_left registered_as]. rewrite IH.
  destruct (registered_as name components) as [[f' args']|]; [done|].
  cbn. destruct (decide (name = name')) as [->|Hne].
  - by rewrite lookup_insert_eq.
  - by rewrite lookup_insert_ne.
Qed.

Lemma NewHandler_run name f args r w :
  NewHandler name f args r w =
  match mapM (λ arg, Get arg (URL_Query r)) args w with
  | (Panics, w1) => (Panics, w1)
  | (Returns argv, w1) =>
      match executeTemplate name f argv w1 with
      | (Panics, w2) => (Panics, w2)
      | (Returns (inr err), w2) =>
          (Returns (http_Error (Error err) StatusInternalServerError), w2)
      | (Returns (inl component), w2) =>
          (Returns {| StatusCode := StatusOK; Body := Render component |}, w2)
      end
  end.
Proof.
  unfold NewHandler, mbind, M_bind.
  destruct (mapM (M:=M) _ args w) as [[argv|] w1]; [|done].
  destruct (executeTemplate name f argv w1) as [[[c|err]|] w2]; done.
Qed.



Example preview_unknown_name :
  previewHandler Extract_preview
    (register [("button", button, [TextArg "text" "Click"])] New)
    {| URL_Path := "/storybook_preview/unknownName"; URL_Query := ∅ |} world0 =
  (Returns {| StatusCode := 404; Body := "404 page not found" +:+ newline |}, world0).
Proof. vm_compute. reflexivity. Qed.

Example preview_button :
  previewHandler Extract_preview
    (register [("button", button, [TextArg "text" "Click"])] New)
    {| URL_Path := "/storybook_preview/button";
       URL_Query := {[ "text" := ["Hi"] ]} |} world0 =
  (Returns {| StatusCode := 200; Body := "<button>Hi</button>" |},
   {| cells := ∅; invoked := [[VString "Hi"]] |}).
Proof. vm_compute. reflexivity. Qed.

Example preview_dispatch_failure :
  previewHandler Extract_preview
    (register [("pair", two_results, [])] New)
    {| URL_Path := "/storybook_preview/pair"; URL_Query := ∅ |} world0 =
  (Returns {| StatusCode := 500;
              Body := "templ-storybook: function pair must return a templ.Component"
                      +:+ newline |},
   {| cells := ∅; invoked := [[]] |}).
Proof. vm_compute. reflexivity. Qed.

(** ** strconv.ParseInt and IntArg *)

Lemma digit_val_spec c :
  if is_digit c
  then digit_val c = Some (byte_of c - 48) ∧ 0 <= byte_of c - 48 <= 9
  else digit_val c = None ∨ ∃ d, digit_val c = Some d ∧ 10 <= d.
Proof.
  unfold is_digit, digit_val.
  destruct (Z.leb_spec 48 (byte_of c)), (Z.leb_spec (byte_of c) 57); cbn;
    try (split; [done | lia]);
    destruct (Z.leb_spec 97 (lower (byte_of c))),
             (Z.leb_spec (lower (byte_of c)) 122); cbn;
    first [ by left | right; eexists; split; [done | lia] ].
Qed.

Lemma digits_val_ge s acc z :
  0 <= acc → digits_val s acc = Some z → acc <= z.
Proof.
  revert acc. induction s as [|c s IH]; intros acc Hacc; cbn.
  - intros [= <-]. lia.
  - pose proof (digit_val_spec c) as Hc.
    destruct (is_digit c); [|done].
    intros Hz. apply IH in Hz; lia.
Qed.

Ltac unfold_u64 :=
  unfold wrap64, maxUint64 in *;
  change (2 ^ 64) with 18446744073709551616 in *;
  change (18446744073709551616 - 1) with 18446744073709551615 in *;
  change (18446744073709551615 / 10 + 1) with 1844674407370955162 in *.

(** The loop of [ParseUint] on digits only: the value of the numeral, or
    the range error as soon as the value passes [2^64 - 1]. *)
Lemma ParseUint_loop_spec s n :
  0 <= n <= maxUint64 →
  match digits_val s n with
  | Some z =>
      ParseUint_loop 10 (maxUint64 / 10 + 1) maxUint64 s n =
      if z <=? maxUint64 then (z, None) else (maxUint64, Some ErrRange)
  | None =>
      ParseUint_loop 10 (maxUint64 / 10 + 1) maxUint64 s n = (0, Some ErrSyntax)
      ∨ ParseUint_loop 10 (maxUint64 / 10 + 1) maxUint64 s n =
        (maxUint64, Some ErrRange)
  end.
Proof.
  revert n. induction s as [|c s IH]; intros n Hn; cbn [digits_val ParseUint_loop].
  - destruct (Z.leb_spec n maxUint64); [done | lia].
  - pose proof (digit_val_spec c) as Hc.
    destruct (is_digit c).
    + destruct Hc as [-> Hd]. set (d := byte_of c - 48) in *.
      destruct (Z.leb_spec 10 d); [lia|].
      assert (Hmono : ∀ z, digits_val s (n * 10 + d) = Some z → n * 10 + d <= z)
        by (intros z; apply digits_val_ge; lia).
      destruct (Z.leb_spec (maxUint64 / 10 + 1) n) as [Hcut|Hcut].
      * destruct (digits_val s (n * 10 + d)) as [z|] eqn:Hz; [|by right].
        specialize (Hmono z eq_refl).
        destruct (Z.leb_spec z maxUint64); [unfold_u64; lia | done].
      * assert (wrap64 (n * 10) = n * 10) as ->
          by (unfold_u64; apply Z.mod_small; lia).
        destruct (Z.le_gt_cases (n * 10 + d) maxUint64) as [Hfit|Hover].
        -- assert (wrap64 (n * 10 + d) = n * 10 + d) as ->
             by (unfold_u64; apply Z.mod_small; lia).
           destruct (Z.ltb_spec (n * 10 + d) (n * 10)); [lia|].
           destruct (Z.ltb_spec maxUint64 (n * 10 + d)); [lia|]. cbn.
           apply IH. lia.
        -- assert (wrap64 (n * 10 + d) = n * 10 + d - 2 ^ 64) as ->.
           { unfold_u64. symmetry.
             apply (Z.mod_unique _ _ 1); lia. }
           destruct (Z.ltb_spec (n * 10 + d - 2 ^ 64) (n * 10));
             [|unfold_u64; lia]. cbn.
           destruct (digits_val s (n * 10 + d)) as [z|] eqn:Hz; [|by right].
           specialize (Hmono z eq_refl).
           destruct (Z.leb_spec z maxUint64); [lia | done].
    + destruct Hc as [->|(d & -> & Hd)]; [by left|].
      destruct (Z.leb_spec 10 d); [by left | lia].
Qed.

Lemma ParseUint10_spec s :
  match decimal s with
  | Some z =>
      ParseUint10 s =
      if z <=? maxUint64 then (z, None) else (maxUint64, Some ErrRange)
  | None =>
      ParseUint10 s = (0, Some ErrSyntax)
      ∨ ParseUint10 s = (maxUint64, Some ErrRange)
  end.
Proof.
  destruct s as [|c s]; [by left|].
  unfold decimal, ParseUint10.
  apply (ParseUint_loop_spec (String c s) 0). unfold_u64. lia.
Qed.

Lemma decimal_nonneg s z : decimal s = Some z → 0 <= z.
Proof.
  destruct s as [|c s]; [done|]. unfold decimal.
  apply digits_val_ge. lia.
Qed.

Ltac unfold_i64 :=
  unfold int64, maxUint64 in *;
  change (2 ^ 64) with 18446744073709551616 in *;
  change (18446744073709551616 - 1) with 18446744073709551615 in *;
  change (2 ^ 63) with 9223372036854775808 in *.

Lemma int64_small z : - 2 ^ 63 <= z < 2 ^ 63 → int64 z = z.
Proof.
  intros Hz. unfold_i64.
  rewrite Z.mod_small by lia. lia.
Qed.

Lemma int64_min : int64 (2 ^ 63) = - 2 ^ 63.
Proof. reflexivity. Qed.

Ltac case_compare :=
  repeat match goal with
  | |- context [Z.leb ?a ?b] => destruct (Z.leb_spec a b)
  | |- context [Z.ltb ?a ?b] => destruct (Z.ltb_spec a b)
  end.

Lemma ParseInt10_spec s :
  match signed_decimal s with
  | Some z => ParseInt10 s = saturate z
  | None =>
      ParseInt10 s = (0, Some ErrSyntax)
      ∨ ParseInt10 s = (2 ^ 63 - 1, Some ErrRange)
      ∨ ParseInt10 s = (- 2 ^ 63, Some ErrRange)
  end.
Proof.
  destruct s as [|c rest]; [by left|].
  unfold signed_decimal, ParseInt10.
  destruct (decide (c = "+"%char)) as [Hplus|Hplus];
    [|destruct (decide (c = "-"%char)) as [Hminus|Hminus]].
  - pose proof (ParseUint10_spec rest) as Hu.
    pose proof (decimal_nonneg rest) as Hz.
    destruct (decimal rest) as [z|].
    + specialize (Hz z eq_refl). rewrite Hu. unfold saturate.
      destruct (Z.leb_spec z maxUint64); cbn; case_compare; cbn;
        unfold_i64; try lia; try done.
      rewrite Z.mod_small by lia. f_equal. lia.
    + destruct Hu as [->| ->]; cbn; [by left | right; by left].
  - pose proof (ParseUint10_spec rest) as Hu.
    pose proof (decimal_nonneg rest) as Hz.
    destruct (decimal rest) as [z|]; cbn [fmap option_fmap option_map].
    + specialize (Hz z eq_refl). rewrite Hu. unfold saturate.
      destruct (Z.leb_spec z maxUint64); cbn; case_compare; cbn;
        unfold_i64; try lia; try done.
      f_equal.
      destruct (Z.eq_dec z 9223372036854775808) as [->|Hne]; [done|].
      rewrite (Z.mod_small (z + 9223372036854775808)) by lia.
      replace (z + 9223372036854775808 - 9223372036854775808) with z by lia.
      rewrite Z.mod_small by lia. lia.
    + destruct Hu as [->| ->]; cbn; [by left | right; by right].
  - pose proof (ParseUint10_spec (String c rest)) as Hu.
    pose proof (decimal_nonneg (String c rest)) as Hz.
    destruct (decimal (String c rest)) as [z|].
    + specialize (Hz z eq_refl). rewrite Hu. unfold saturate.
      destruct (Z.leb_spec z maxUint64); cbn; case_compare; cbn;
        unfold_i64; try lia; try done.
      rewrite Z.mod_small by lia. f_equal. lia.
    + destruct Hu as [->| ->]; cbn; [by left | right; by left].
Qed.

Example ParseInt10_examples :
  ParseInt10 "42" = (42, None)
  ∧ ParseInt10 "-17" = (-17, None)
  ∧ ParseInt10 "abc" = (0, Some ErrSyntax)
  ∧ ParseInt10 "" = (0, Some ErrSyntax)
  ∧ ParseInt10 "4_2" = (0, Some ErrSyntax)
  ∧ ParseInt10 "-9223372036854775808" = (-9223372036854775808, None)
  ∧ ParseInt10 "9223372036854775808" = (9223372036854775807, Some ErrRange)
  ∧ ParseInt10 "99999999999999999999x" = (9223372036854775807, Some ErrRange).
Proof. repeat split; vm_compute; reflexivity. Qed.

(** C7, as stated, fails: a numeral beyond the [int64] range does not
    parse, and the value extracted is the largest [int64], not zero. *)
Lemma IntArg_Get_out_of_range :
  let q : url_Values := {[ "count" := ["9223372036854775808"] ]} in
  let conf := {| Min := None; Max := None; Step := None |} in
  (ParseInt10 (Values_Get q "count")).2 = Some ErrRange
  ∧ Get (IntArg "count" 0 conf) q world0 =
      (Returns (VInt 9223372036854775807), world0)
  ∧ Get (IntArg "count" 0 conf) q world0 ≠ (Returns (VInt 0), world0).
Proof. cbn zeta. split; [|split]; [vm_compute; reflexivity .. | discriminate]. Qed.

(** C7, amended. The extract function of an [IntArg] parses the named raw
    string as a base-10 signed integer and never surfaces an error.  When
    the parse succeeds the raw string is a signed decimal numeral and the
    result is the integer it denotes; every numeral within the [int64]
    range parses.  When the parse fails on the syntax, which includes an
    absent parameter, the result is zero.  When it fails on the range, the
    result is the largest or the smallest [int64]. *)
Theorem IntArg_Get_lenient (name : string) (value : Z) (conf : IntArgConf)
    (q : url_Values) (w : world) :
  let raw := Values_Get q name in
  ∃ r, Get (IntArg name value conf) q w = (Returns (VInt r), w)
    ∧ match (ParseInt10 raw).2 with
      | None => signed_decimal raw = Some r
      | Some ErrSyntax => r = 0
      | Some ErrRange => r = 2 ^ 63 - 1 ∨ r = - 2 ^ 63
      end
    ∧ (∀ z, signed_decimal raw = Some z → - 2 ^ 63 <= z < 2 ^ 63 → r = z)
    ∧ (q !! name = None → r = 0).
Proof.
  cbn zeta. cbn [Get IntArg]. unfold IntArg_Get.
  pose proof (ParseInt10_spec (Values_Get q name)) as Hp.
  assert (Habsent : q !! name = None → ParseInt10 (Values_Get q name) = (0, Some ErrSyntax)).
  { intros Hq. unfold Values_Get. by rewrite Hq. }
  destruct (ParseInt10 (Values_Get q name)) as [i err] eqn:Hi.
  exists (int i). split; [done|]. cbn [snd].
  assert (Hsat : int (2 ^ 63 - 1) = 2 ^ 63 - 1 ∧ int (- 2 ^ 63) = - 2 ^ 63
                 ∧ int 0 = 0) by done.
  destruct Hsat as (Hmax & Hmin & Hzero).
  destruct (signed_decimal (Values_Get q name)) as [z|].
  - unfold saturate in Hp. revert Hp. case_compare; intros [= -> ->];
      rewrite ?Hmax, ?Hmin;
      try (unfold int; rewrite int64_small by lia);
      (split; [first [done | by left | by right] |]);
      (split; [intros ? [= <-]; first [done | lia]
              | intros Hq; by specialize (Habsent Hq)]).
  - destruct Hp as [[= -> ->]|[[= -> ->]|[= -> ->]]];
      rewrite ?Hmax, ?Hmin, ?Hzero;
      (split; [first [done | by left | by right] |]);
      (split; [done | intros Hq; first [done | by specialize (Habsent Hq)]]).
Qed.

Example IntArg_Get_examples :
  let conf := {| Min := Some 0; Max := Some 100; Step := None |} in
  Get (IntArg "n" 1 conf) {[ "n" := ["42"] ]} world0 = (Returns (VInt 42), world0)
  ∧ Get (IntArg "n" 1 conf) {[ "n" := ["abc"] ]} world0 = (Returns (VInt 0), world0)
  ∧ Get (IntArg "n" 1 conf) ∅ world0 = (Returns (VInt 0), world0)
  ∧ Get (IntArg "n" 1 conf) {[ "n" := ["1000"] ]} world0 = (Returns (VInt 1000), world0).
Proof. repeat split; vm_compute; reflexivity. Qed.

(** ** ObjectArg *)

Lemma world_insert_id (w : world) (ptr : nat) (target : value) :
  cells w !! ptr = Some target →
  {| cells := <[ptr := target]> (cells w); invoked := invoked w |} = w.
Proof. intros Hc. destruct w as [c i]. cbn in *. by rewrite insert_id. Qed.

(** C4, as stated, fails: after a request whose value decoded, a request
    whose value does not decode is answered with the value of the earlier
    request, not with the descriptor's default. *)
Lemma ObjectArg_Get_after_success :
  let arg := ObjectArg checkValid_int decode_int "size" (VInt 1) 0 in
  let w0 := {| cells := {[ 0%nat := VInt 1 ]}; invoked := [] |} in
  let w1 := {| cells := {[ 0%nat := VInt 7 ]}; invoked := [] |} in
  let q1 : url_Values := {[ "size" := ["7"] ]} in
  let q2 : url_Values := {[ "size" := ["{"] ]} in
  Get arg q1 w0 = (Returns (VInt 7), w1)
  ∧ (Unmarshal checkValid_int decode_int (Values_Get q2 "size") (VInt 7)).2 ≠ None
  ∧ Get arg q2 w1 = (Returns (VInt 7), w1)
  ∧ VInt 7 ≠ Value arg.
Proof.
  cbn zeta. split; [|split; [|split]].
  - vm_compute. reflexivity.
  - vm_compute. discriminate.
  - vm_compute. reflexivity.
  - discriminate.
Qed.

(** C4, amended. When the raw string for the argument's name fails to
    decode, the extract function of an [ObjectArg] surfaces no error and
    returns the content of the cell behind [valuePtr] as the decoder left
    it.  When the string is not valid JSON the cell is left as it was, so
    the value returned is the cell's current content, which an earlier
    successful extraction may have changed from its first content. *)
Theorem ObjectArg_Get_decode_failure
    (checkValid : string → option error)
    (decode : string → value → value * option error)
    (name : string) (v : value) (valuePtr : nat) (q : url_Values) (w : world)
    (target target' : value) (err : error)
    (Hcell : cells w !! valuePtr = Some target)
    (Hfail : Unmarshal checkValid decode (Values_Get q name) target
             = (target', Some err)) :
  let extract := Get (ObjectArg checkValid decode name v valuePtr) q w in
  extract = (Returns target',
             {| cells := <[valuePtr := target']> (cells w);
                invoked := invoked w |})
  ∧ (checkValid (Values_Get q name) ≠ None →
     target' = target ∧ extract = (Returns target, w)).
Proof.
  cbn zeta. cbn [Get ObjectArg]. unfold ObjectArg_Get.
  rewrite Hcell, Hfail. split; [done|].
  intros Hinvalid. unfold Unmarshal in Hfail.
  destruct (checkValid (Values_Get q name)); [|done].
  injection Hfail as <- _. split; [done|]. by rewrite world_insert_id.
Qed.

Lemma ObjectArg_Get_decode_failure_witness :
  let w1 := {| cells := {[ 0%nat := VInt 7 ]}; invoked := [] |} in
  let q : url_Values := {[ "size" := ["{"] ]} in
  let extract := Get (ObjectArg checkValid_int decode_int "size" (VInt 1) 0) q w1 in
  extract = (Returns (VInt 7),
             {| cells := <[0%nat := VInt 7]> (cells w1); invoked := invoked w1 |})
  ∧ (checkValid_int (Values_Get q "size") ≠ None →
     VInt 7 = VInt 7 ∧ extract = (Returns (VInt 7), w1)).
Proof.
  apply (ObjectArg_Get_decode_failure checkValid_int decode_int "size" (VInt 1) 0
           {[ "size" := ["{"] ]}
           {| cells := {[ 0%nat := VInt 7 ]}; invoked := [] |} (VInt 7) (VInt 7)
           (errExternal "invalid character looking for beginning of value"));
    vm_compute; reflexivity.
Defined.

Example Unmarshal_int_examples :
  Unmarshal checkValid_int decode_int " 12 " (VInt 1) = (VInt 12, None)
  ∧ Unmarshal checkValid_int decode_int "null" (VInt 1) = (VInt 1, None)
  ∧ (Unmarshal checkValid_int decode_int "" (VInt 1)).1 = VInt 1
  ∧ (Unmarshal checkValid_int decode_int "012" (VInt 1)).2 ≠ None.
Proof. repeat split; vm_compute; (reflexivity || discriminate). Qed.

(** ** The build pipeline *)

Section BuildFacts.
Variable hash : gmap string string → string.
Variable encode_Conf : Conf → string + error.
Variable Quote : string → string.

(** The error [Build] returns is decided by the first two stages. *)
Lemma Build_error sh env d :
  (Build hash encode_Conf Quote sh env d).2 =
  match installStorybook env d with
  | (_, Some err) => Some err
  | (d1, None) =>
      if ctx_Err_1 env then None
      else (configureStorybook hash encode_Conf Quote sh env d1).2.2
  end.
Proof.
  unfold Build.
  destruct (installStorybook env d) as [d1 [err|]]; [done|].
  destruct (ctx_Err_1 env); [done|].
  destruct (configureStorybook hash encode_Conf Quote sh env d1)
    as [d2 [changed [err|]]]; [done|]. cbn.
  by destruct (ctx_Err_2 env), (ctx_Err_3 env).
Qed.
End BuildFacts.

(** C5, on the code. With the tool installed and a first configuration to
    write, stage 3 runs [npm run build-storybook]; the command fails, and
    [Build] still returns no error. *)
Theorem Build_drops_build_error :
  ∃ d, Build hash_files encode_title quote_plain button_book
         (build_fails [button_conf]) installed
         = (d, None)
     ∧ ran d = [["npm"; "run"; "build-storybook"]]
     ∧ (buildStorybook (build_fails [button_conf]) installed).2
         = Some (errExternal "exit status 1").
Proof. eexists. split; [vm_compute; reflexivity | split; reflexivity]. Qed.

Lemma Title_fold_NewConf_arg args c :
  Title (fold_left NewConf_arg args c) = Title c.
Proof.
  revert c. induction args as [|arg args IH]; intros c; [done|].
  cbn [fold_left]. by rewrite IH.
Qed.

Lemma Title_NewConf title args : Title (NewConf title args) = title.
Proof. unfold NewConf, AddStory. cbn [Title]. by rewrite Title_fold_NewConf_arg. Qed.

Lemma Config_register_titles components sh :
  map_Forall (λ name c, Title c = name) (Config sh) →
  map_Forall (λ name c, Title c = name) (Config (register components sh)).
Proof.
  revert sh. induction components as [|[[name f] args] components IH];
    intros sh Hsh; [done|].
  unfold register in *. cbn [fold_left]. apply IH. cbn.
  apply map_Forall_insert_2; [apply Title_NewConf | done].
Qed.

(** *** Paths *)

Example path_Join_examples :
  path_Join ["./storybook-server"; "stories"] = "storybook-server/stories"
  ∧ path_Join ["./storybook-server"; "stories/button.stories.json"]
    = "storybook-server/stories/button.stories.json"
  ∧ path_Join ["./storybook-server"; "stories/./a.stories.json"]
    = "storybook-server/stories/a.stories.json"
  ∧ path_Join ["./storybook-server"; "stories/../x.stories.json"]
    = "storybook-server/x.stories.json"
  ∧ path_Join [""; "stories"] = "stories"
  ∧ path_Join ["/srv//sb/"; "stories"] = "/srv/sb/stories"
  ∧ path_Join [".."; "stories"] = "../stories"
  ∧ path_Join ["a/../.."; "b"] = "../b"
  ∧ path_Join ["/.."; "b"] = "/b"
  ∧ path_Join [""; ""] = ""
  ∧ Clean "" = "." ∧ Clean "./" = "." ∧ Clean "/" = "/" ∧ Clean "a/b/../.." = ".".
Proof. repeat split; vm_compute; reflexivity. Qed.

Lemma split_nonempty s : split s ≠ [].
Proof.
  destruct s as [|c s]; [done|]. cbn.
  destruct (decide (c = "/"%char)); [done|]. by destruct (split s).
Qed.

Lemma split_app (a b : string) :
  split (a +:+ "/" +:+ b) = (split a ++ split b)%list.
Proof.
  induction a as [|c a IH].
  - change ("" +:+ "/" +:+ b) with (String "/"%char b). cbn [split].
    by rewrite decide_True.
  - rewrite string_app_cons. cbn [split]. rewrite IH.
    destruct (decide (c = "/"%char)); [done|].
    pose proof (split_nonempty a). by destruct (split a).
Qed.

Lemma split_plain s : has_slash s = false → split s = [s].
Proof.
  induction s as [|c s IH]; [done|]. cbn.
  intros [Hc Hs]%orb_false_elim. apply bool_decide_eq_false in Hc.
  rewrite decide_False by done. by rewrite IH.
Qed.

Lemma has_slash_app (s t : string) :
  has_slash (s +:+ t) = has_slash s || has_slash t.
Proof.
  induction s as [|c s IH]; [done|].
  rewrite string_app_cons. cbn. by rewrite IH, orb_assoc.
Qed.

Lemma strip_prefix_app (p s : string) : strip_prefix p (p +:+ s) = Some s.
Proof.
  induction p as [|c p IH]; [by destruct s|].
  rewrite string_app_cons. cbn. by rewrite decide_True.
Qed.

Lemma join_snoc sep (l : list string) x :
  l ≠ [] → join sep (l ++ [x]) = join sep l +:+ sep +:+ x.
Proof.
  induction l as [|s l IH]; [done|]. intros _.
  destruct l as [|t l]; [done|].
  change ((s :: t :: l) ++ [x])%list with (s :: ((t :: l) ++ [x]))%list.
  change (((t :: l) ++ [x]))%list with (t :: (l ++ [x]))%list.
  rewrite !join_cons2.
  change (t :: (l ++ [x]))%list with ((t :: l) ++ [x])%list.
  rewrite IH by done. by rewrite !string_app_assoc.
Qed.

Lemma string_app_nonempty (s t : string) : s ≠ "" → s +:+ t ≠ "".
Proof. destruct s; [done|]. by rewrite string_app_cons. Qed.

Lemma rooted_app (s t : string) : s ≠ "" → rooted (s +:+ t) = rooted s.
Proof. destruct s; [done|]. by rewrite string_app_cons. Qed.

Lemma Clean_step_push r kept X :
  X ≠ "" → X ≠ "." → X ≠ ".." → Clean_step r kept X = X :: kept.
Proof. intros. unfold Clean_step. by rewrite !decide_False. Qed.

(** Cleaning a path that ends in one more plain element. *)
Lemma Clean_push (b X : string) :
  b ≠ "" → has_slash X = false → X ≠ "" → X ≠ "." → X ≠ ".." →
  fold_left (Clean_step (rooted b)) (split b) [] ≠ [] →
  Clean (b +:+ "/" +:+ X) = Clean b +:+ "/" +:+ X.
Proof.
  intros Hb Hslash H0 H1 H2 Hkept. unfold Clean.
  rewrite rooted_app by done.
  rewrite (decide_False (P := b = "")) by done.
  destruct (decide (b +:+ "/" +:+ X = "")) as [Hempty|_];
    [exfalso; exact (string_app_nonempty _ _ Hb Hempty)|].
  rewrite split_app, (split_plain X), fold_left_app by done. cbn [fold_left].
  rewrite Clean_step_push by done.
  set (kept := fold_left (Clean_step (rooted b)) (split b) []) in *.
  assert (reverse kept ≠ []) as Hrev.
  { destruct kept as [|s0 kept']; [done|]. rewrite reverse_cons.
    by destruct (reverse kept'). }
  rewrite reverse_cons, join_snoc by done.
  destruct (rooted b).
  - by rewrite !string_app_assoc.
  - by destruct kept.
Qed.

Lemma kept_stories r (P : string) :
  fold_left (Clean_step r) (split (P +:+ "/" +:+ "stories")) [] ≠ [].
Proof.
  rewrite split_app, fold_left_app. change (split "stories") with ["stories"].
  cbn [fold_left]. by rewrite Clean_step_push.
Qed.

Lemma story_base_plain (T : string) :
  has_slash T = false →
  has_slash (T +:+ ".stories.json") = false
  ∧ T +:+ ".stories.json" ≠ ""
  ∧ T +:+ ".stories.json" ≠ "."
  ∧ T +:+ ".stories.json" ≠ "..".
Proof.
  intros HT. split; [by rewrite has_slash_app, HT|].
  repeat split; intros Heq; apply (f_equal String.length) in Heq;
    rewrite string_length_app in Heq; cbn in Heq; lia.
Qed.

(** For a title without a slash the file of a component lies directly in
    the stories directory, under the title followed by [.stories.json]. *)
Lemma story_name_plain sh c :
  has_slash (Title c) = false →
  story_name sh c = storiesDir sh +:+ "/" +:+ Title c +:+ ".stories.json".
Proof.
  intros HT. destruct (story_base_plain _ HT) as (Hslash & H0 & H1 & H2).
  unfold story_name, storiesDir, path_Join. cbn [fold_left].
  rewrite (decide_True (P := "" = "")) by done.
  destruct (decide (Path sh = "")) as [Heq|HP].
  - rewrite !(decide_False (P := _ = "")) by done.
    change ("stories/" +:+ Title c +:+ ".stories.json")
      with ("stories" +:+ "/" +:+ Title c +:+ ".stories.json").
    by apply Clean_push.
  - destruct (decide (Path sh +:+ "/" +:+ "stories/" +:+ Title c
                      +:+ ".stories.json" = "")) as [Hempty|_];
      [exfalso; exact (string_app_nonempty _ _ HP Hempty)|].
    destruct (decide (Path sh +:+ "/" +:+ "stories" = "")) as [Hempty|_];
      [exfalso; exact (string_app_nonempty _ _ HP Hempty)|].
    change ("stories/" +:+ Title c +:+ ".stories.json")
      with ("stories" +:+ "/" +:+ Title c +:+ ".stories.json").
    rewrite <- (string_app_assoc (Path sh) "/"), <- string_app_assoc.
    rewrite (string_app_assoc (Path sh) "/" "stories").
    apply Clean_push; try done.
    + by apply string_app_nonempty.
    + apply kept_stories.
Qed.

Lemma story_name_split sh c :
  has_slash (Title c) = false →
  story_name sh c = (storiesDir sh +:+ "/") +:+ Title c +:+ ".stories.json"
  ∧ has_slash (Title c +:+ ".stories.json") = false.
Proof.
  intros HT. split.
  - by rewrite story_name_plain, string_app_assoc.
  - by apply story_base_plain.
Qed.

(** [os.Create] and the write that follows it, for a title without a
    slash: both act on the file [<title>.stories.json] of the stories
    directory. *)
Lemma os_Create_plain sh env c d files :
  has_slash (Title c) = false → stories d = Some files →
  os_Create sh env (story_name sh c) d =
  match Create_fault env (story_name sh c) with
  | Some err => inr err
  | None => inl (set_stories (Some (<[Title c +:+ ".stories.json" := ""]> files)) d)
  end.
Proof.
  intros HT Hd. destruct (story_name_split sh c HT) as [Hname Hbase].
  unfold os_Create. destruct (Create_fault env _); [done|].
  rewrite Hname at 1. by rewrite strip_prefix_app, Hd, Hbase.
Qed.

Lemma write_file_plain sh c text d :
  has_slash (Title c) = false →
  write_file sh (story_name sh c) text d =
  set_stories (<[Title c +:+ ".stories.json" := text]> <$> stories d) d.
Proof.
  intros HT. destruct (story_name_split sh c HT) as [Hname _].
  unfold write_file. rewrite Hname at 1. by rewrite strip_prefix_app.
Qed.

Lemma stories_written_snoc encode_Conf cs c text (files : gmap string string) :
  encode_Conf c = inl text →
  stories_written encode_Conf (reverse (c :: cs)) ∪ files =
  stories_written encode_Conf (reverse cs)
    ∪ <[Title c +:+ ".stories.json" := text]> files.
Proof.
  intros Henc. rewrite reverse_cons. unfold stories_written.
  rewrite fmap_app, list_to_map_app. cbn. rewrite Henc.
  rewrite <- (assoc_L (∪)).
  by rewrite <- insert_union_l, (left_id_L ∅ (∪)).
Qed.

Lemma stories_written_perm encode_Conf cs cs' :
  NoDup ((λ c, Title c +:+ ".stories.json") <$> cs) → cs ≡ₚ cs' →
  stories_written encode_Conf cs = stories_written encode_Conf cs'.
Proof.
  intros Hnd Hperm. unfold stories_written.
  apply list_to_map_proper; [|by rewrite Hperm].
  by rewrite <- list_fmap_compose.
Qed.

Lemma set_stories_twice s s' d :
  set_stories s (set_stories s' d) = set_stories s d.
Proof. done. Qed.

Lemma os_Create_frame sh env name d d' :
  os_Create sh env name d = inl d' →
  path_present d' = path_present d
  ∧ preview_js d' = preview_js d
  ∧ ran d' = ran d.
Proof.
  unfold os_Create. intros Hc. repeat case_match; by simplify_eq.
Qed.

Lemma write_file_frame sh name text d :
  let d' := write_file sh name text d in
  path_present d' = path_present d
  ∧ preview_js d' = preview_js d
  ∧ ran d' = ran d.
Proof. unfold write_file. by case_match. Qed.

Section ConfigureFacts.
Variable hash : gmap string string → string.
Variable encode_Conf : Conf → string + error.
Variable Quote : string → string.

(** The loop writes story files and nothing else. *)
Lemma write_stories_frame sh env cs d :
  let d' := (write_stories encode_Conf Quote sh env cs d).1 in
  path_present d' = path_present d
  ∧ preview_js d' = preview_js d
  ∧ ran d' = ran d.
Proof.
  cbn zeta. revert d. induction cs as [|c cs IH]; intros d; [done|].
  cbn [write_stories].
  destruct (os_Create sh env (story_name sh c) d) as [d0|err] eqn:Hc; [|done].
  apply os_Create_frame in Hc as (Hp & Hj & Hr).
  destruct (encode_Conf c) as [text|err]; [|done].
  destruct (IH (write_file sh (story_name sh c) text d0)) as (-> & -> & ->).
  destruct (write_file_frame sh (story_name sh c) text d0) as (-> & -> & ->).
  done.
Qed.

(** A pass of the loop over components whose titles have no slash, in a
    stories directory that exists: when it ends without error it has
    written the file of every component it visited, later visits over
    earlier ones, and nothing outside the stories directory. *)
Lemma write_stories_ok sh env cs d d' files :
  Forall (λ c, has_slash (Title c) = false) cs →
  stories d = Some files →
  write_stories encode_Conf Quote sh env cs d = (d', None) →
  d' = set_stories (Some (stories_written encode_Conf (reverse cs) ∪ files)) d.
Proof.
  intros Hplain. revert d files.
  induction Hplain as [|c cs HT _ IH]; intros d files Hd.
  - cbn. intros [= <-]. unfold stories_written. cbn.
    rewrite (left_id_L ∅ (∪)). by destruct d; cbn in *; subst.
  - cbn [write_stories]. rewrite (os_Create_plain _ _ _ _ files) by done.
    destruct (Create_fault env _) as [err|]; [done|].
    destruct (encode_Conf c) as [text|err] eqn:Henc; [|done].
    rewrite write_file_plain by done. cbn [stories set_stories fmap option_fmap option_map].
    rewrite set_stories_twice, insert_insert_eq. intros Hrest.
    apply (IH _ (<[Title c +:+ ".stories.json" := text]> files)) in Hrest; [|done].
    rewrite Hrest, set_stories_twice.
    by rewrite (stories_written_snoc _ _ _ text).
Qed.

(** The loop stops at the first file it cannot create. *)
Lemma write_stories_stops sh env cs1 c cs2 err d files :
  Forall (λ c', has_slash (Title c') = false) cs1 →
  Forall (λ c', Create_fault env (story_name sh c') = None
                ∧ ∃ text, encode_Conf c' = inl text) cs1 →
  stories d = Some files →
  Create_fault env (story_name sh c) = Some err →
  write_stories encode_Conf Quote sh env (cs1 ++ c :: cs2) d =
  (set_stories (Some (stories_written encode_Conf (reverse cs1) ∪ files)) d,
   Some (errWrap ("failed to create config file to "
                  +:+ Quote (story_name sh c)) err)).
Proof.
  intros Hplain Hbefore Hd Hfail. revert d files Hd.
  induction Hbefore as [|c' cs1 [Hcreate [text Henc]] _ IH]; intros d files Hd.
  - cbn [app write_stories]. unfold os_Create. rewrite Hfail.
    unfold stories_written. cbn. rewrite (left_id_L ∅ (∪)).
    by destruct d; cbn in *; subst.
  - apply Forall_cons in Hplain as [HT Hplain].
    cbn [app write_stories].
    rewrite (os_Create_plain _ _ _ _ files), Hcreate, Henc by done.
    rewrite write_file_plain by done. cbn [stories set_stories fmap option_fmap option_map].
    rewrite set_stories_twice, insert_insert_eq.
    rewrite (IH Hplain _ (<[Title c' +:+ ".stories.json" := text]> files)) by done.
    by rewrite set_stories_twice, (stories_written_snoc _ _ _ text).
Qed.
End ConfigureFacts.

Lemma os_Create_dir sh env name d d' :
  os_Create sh env name d = inl d' → is_Some (stories d) → is_Some (stories d').
Proof.
  unfold os_Create. intros Hc Hd. repeat case_match; by simplify_eq.
Qed.

Lemma write_file_dir sh name text d :
  is_Some (stories d) → is_Some (stories (write_file sh name text d)).
Proof.
  unfold write_file. intros [files Hd]. case_match; cbn; by rewrite Hd.
Qed.

(** The files of distinct registered components have distinct names. *)
Lemma NoDup_story_bases components :
  NoDup ((λ c, Title c +:+ ".stories.json")
           <$> (map_to_list (Config (register components New))).*2).
Proof.
  pose proof (Config_register_titles components New (map_Forall_empty _)) as Ht.
  set (m := Config (register components New)) in *.
  assert ((λ c, Title c +:+ ".stories.json") <$> (map_to_list m).*2 =
          (λ name, name +:+ ".stories.json") <$> (map_to_list m).*1) as ->.
  { rewrite <- !list_fmap_compose. apply list_fmap_ext.
    intros i [name c] Hi. cbn. f_equal.
    apply (Ht name c). apply elem_of_map_to_list.
    by apply list_elem_of_lookup_2 in Hi. }
  apply NoDup_fmap_2; [|apply NoDup_fst_map_to_list].
  intros s1 s2. apply string_app_inj_r.
Qed.

Lemma Config_register_plain components sh :
  Forall (λ c : string * GoFunc * list Arg, has_slash c.1.1 = false) components →
  map_Forall (λ _ c, has_slash (Title c) = false) (Config sh) →
  map_Forall (λ _ c, has_slash (Title c) = false) (Config (register components sh)).
Proof.
  intros Hnames. revert sh.
  induction Hnames as [|[[name f] args] components Hname _ IH];
    intros sh Hsh; [done|].
  unfold register in *. cbn [fold_left]. apply IH. cbn.
  apply map_Forall_insert_2; [by rewrite Title_NewConf | done].
Qed.

(** Names without a slash give titles without a slash, in whatever order
    the registry is visited. *)
Lemma visit_plain components (visit : list Conf) :
  Forall (λ c : string * GoFunc * list Arg, has_slash c.1.1 = false) components →
  visit ≡ₚ (map_to_list (Config (register components New))).*2 →
  Forall (λ c, has_slash (Title c) = false) visit.
Proof.
  intros Hnames Hvisit.
  apply (Permutation_Forall (symmetry Hvisit)).
  apply Forall_fmap, Forall_forall. intros [name c] Hin.
  apply elem_of_map_to_list in Hin.
  by apply (Config_register_plain components New Hnames (map_Forall_empty _) name c).
Qed.

Section ConfigureTwice.
Variable hash : gmap string string → string.
Variable encode_Conf : Conf → string + error.
Variable Quote : string → string.

Lemma write_stories_dir sh env cs d :
  is_Some (stories d) →
  is_Some (stories (write_stories encode_Conf Quote sh env cs d).1).
Proof.
  revert d. induction cs as [|c cs IH]; intros d Hd; [done|].
  cbn [write_stories].
  destruct (os_Create sh env (story_name sh c) d) as [d0|err] eqn:Hc; [|done].
  apply os_Create_dir in Hc; [|done].
  destruct (encode_Conf c) as [text|err]; [|done].
  by apply IH, write_file_dir.
Qed.

(** What [configureStorybook] does, with the loop named. *)
Lemma configureStorybook_loop sh env d :
  let loop := write_stories encode_Conf Quote sh env (range_Config env)
                (set_stories (Some ∅) d) in
  let before := match stories d with Some files => hash files | None => "" end in
  let after := match HashDir_after_fault env, stories loop.1 with
               | false, Some files => hash files
               | _, _ => ""
               end in
  configureStorybook hash encode_Conf Quote sh env d =
  match HashDir_before_fault env with
  | Some err => (d, (false, Some err))
  | None =>
      match RemoveAll_fault env with
      | Some err => (d, (false, Some err))
      | None =>
          match (if path_present d then Mkdir_stories_fault env
                 else Some (errExternal ("mkdir " +:+ storiesDir sh
                                         +:+ ": no such file or directory"))) with
          | Some err => (set_stories None d, (false, Some err))
          | None =>
              match loop.2 with
              | Some err => (loop.1, (false, Some err))
              | None =>
                  match WriteFile_fault env with
                  | Some err =>
                      (loop.1, (negb (bool_decide (before = after)), Some err))
                  | None =>
                      (set_preview_js (Some previewJS) loop.1,
                       (negb (bool_decide (before = after)), None))
                  end
              end
          end
      end
  end.
Proof.
  cbn zeta. unfold configureStorybook, HashDir.
  rewrite !set_stories_twice. cbn [path_present set_stories].
  destruct (write_stories encode_Conf Quote sh env (range_Config env)
              (set_stories (Some ∅) d)) as [dw oerr].
  cbn [fst snd].
  destruct (HashDir_before_fault env), (stories d), (RemoveAll_fault env),
    (path_present d), (Mkdir_stories_fault env), oerr,
    (HashDir_after_fault env), (stories dw), (WriteFile_fault env); done.
Qed.
End ConfigureTwice.

Section ConfigureResults.
Variable hash : gmap string string → string.
Variable encode_Conf : Conf → string + error.
Variable Quote : string → string.

(** The loop of a pass over titles without a slash, when it ends without
    error. *)
Lemma configure_loop_ok sh env d :
  Forall (λ c, has_slash (Title c) = false) (range_Config env) →
  let loop := write_stories encode_Conf Quote sh env (range_Config env)
                (set_stories (Some ∅) d) in
  loop.2 = None →
  loop.1 = set_stories
             (Some (stories_written encode_Conf (reverse (range_Config env)))) d.
Proof.
  cbn zeta. intros Hplain Hok.
  destruct (write_stories encode_Conf Quote sh env (range_Config env)
              (set_stories (Some ∅) d)) as [dw oerr] eqn:Hw.
  cbn in Hok. subst oerr.
  apply (write_stories_ok _ _ _ _ _ _ _ ∅) in Hw; [|done..].
  cbn [fst]. by rewrite Hw, (right_id_L ∅ (∪)), set_stories_twice.
Qed.

(** A pass without error over titles without a slash, in full: the disk it
    leaves and the flag. *)
Lemma configureStorybook_success sh env d d' changed :
  Forall (λ c, has_slash (Title c) = false) (range_Config env) →
  configureStorybook hash encode_Conf Quote sh env d = (d', (changed, None)) →
  let written := stories_written encode_Conf (reverse (range_Config env)) in
  d' = {| path_present := true; stories := Some written;
          preview_js := Some previewJS; outside := outside d; ran := ran d |}
  ∧ changed =
    negb (bool_decide
            (match stories d with Some files => hash files | None => "" end =
             if HashDir_after_fault env then "" else hash written)).
Proof.
  intros Hplain. rewrite configureStorybook_loop.
  pose proof (configure_loop_ok sh env d Hplain) as Hloop. cbn zeta in *.
  destruct (write_stories encode_Conf Quote sh env (range_Config env)
              (set_stories (Some ∅) d)) as [dw oerr].
  cbn [fst snd] in *.
  destruct (HashDir_before_fault env); [done|].
  destruct (RemoveAll_fault env); [done|].
  destruct (path_present d) eqn:Hpresent; [|done].
  destruct (Mkdir_stories_fault env); [done|].
  destruct oerr; [done|]. rewrite Hloop by done.
  destruct (WriteFile_fault env); [done|].
  intros [= <- <-]. split.
  - unfold set_preview_js, set_stories. cbn. by rewrite Hpresent.
  - cbn [stories set_stories]. by destruct (HashDir_after_fault env).
Qed.

(** The flag of a pass without error, whatever the titles: the stories
    directory exists afterwards and the flag compares the two hashes. *)
Lemma configureStorybook_flag sh env d d' changed :
  configureStorybook hash encode_Conf Quote sh env d = (d', (changed, None)) →
  ∃ files', stories d' = Some files'
    ∧ changed =
      negb (bool_decide
              (match stories d with Some files => hash files | None => "" end =
               if HashDir_after_fault env then "" else hash files')).
Proof.
  rewrite configureStorybook_loop. cbn zeta.
  pose proof (write_stories_dir encode_Conf Quote sh env (range_Config env)
                (set_stories (Some ∅) d)) as [files' Hfiles]; [by eexists|].
  destruct (write_stories encode_Conf Quote sh env (range_Config env)
              (set_stories (Some ∅) d)) as [dw oerr].
  cbn [fst snd] in *. rewrite Hfiles.
  destruct (HashDir_before_fault env); [done|].
  destruct (RemoveAll_fault env); [done|].
  destruct (path_present d); [|done].
  destruct (Mkdir_stories_fault env); [done|].
  destruct oerr; [done|].
  destruct (WriteFile_fault env); [done|].
  intros [= <- <-]. exists files'. split; [done|].
  by destruct (HashDir_after_fault env).
Qed.

Lemma configureStorybook_failure sh env d d' changed err :
  WriteFile_fault env = None →
  configureStorybook hash encode_Conf Quote sh env d = (d', (changed, Some err)) →
  changed = false ∧ preview_js d' = preview_js d ∧ ran d' = ran d.
Proof.
  intros Hwrite. rewrite configureStorybook_loop, Hwrite. cbn zeta.
  destruct (write_stories_frame encode_Conf Quote sh env (range_Config env)
              (set_stories (Some ∅) d)) as (_ & Hjs & Hran).
  destruct (write_stories encode_Conf Quote sh env (range_Config env)
              (set_stories (Some ∅) d)) as [dw oerr].
  cbn [fst snd] in *.
  repeat case_match; intros; by simplify_eq.
Qed.

Lemma configureStorybook_ran sh env d :
  ran (configureStorybook hash encode_Conf Quote sh env d).1 = ran d.
Proof.
  rewrite configureStorybook_loop. cbn zeta.
  destruct (write_stories_frame encode_Conf Quote sh env (range_Config env)
              (set_stories (Some ∅) d)) as (_ & _ & Hran).
  destruct (write_stories encode_Conf Quote sh env (range_Config env)
              (set_stories (Some ∅) d)) as [dw oerr].
  cbn [fst snd] in *.
  repeat case_match; by simplify_eq.
Qed.

End ConfigureResults.




Example Build_twice :
  let first := Build hash_files encode_title quote_plain button_book
                 (quiet [button_conf]) installed in
  let second := Build hash_files encode_title quote_plain button_book
                  (quiet [button_conf]) first.1 in
  ran first.1 = [["npm"; "run"; "build-storybook"]]
  ∧ ran second.1 = [["npm"; "run"; "build-storybook"]]
  ∧ second.2 = None.
Proof. vm_compute. repeat split. Qed.

(** * Further properties *)

(** ** SortedMap and NewConf *)

Lemma last_added_NoDup (ops : list (string * value)) k v :
  NoDup ops.*1 → (k, v) ∈ ops → last_added k ops = Some v.
Proof.
  induction ops as [|[k' v'] ops IH]; intros Hnd Hin.
  - by apply elem_of_nil in Hin.
  - rewrite fmap_cons in Hnd. apply NoDup_cons in Hnd as [Hk' Hnd].
    cbn [fst] in Hk'. cbn [last_added].
    apply elem_of_cons in Hin as [[= <- <-]|Hin].
    + destruct (last_added k ops) as [w|] eqn:Hw.
      * exfalso. apply Hk'. apply last_added_elem. by rewrite Hw.
      * by rewrite decide_True.
    + by rewrite (IH Hnd Hin).
Qed.

Lemma fold_NewConf_arg args c :
  let c' := fold_left NewConf_arg args c in
  Parameters c' = Parameters c
  ∧ Stories c' = Stories c
  ∧ Args c' = adds ((λ a, (Name a, Value a)) <$> args) (Args c)
  ∧ ArgTypes c' =
    adds ((λ a, (Name a, VObject [("control", Control a)])) <$> args) (ArgTypes c).
Proof.
  revert c. induction args as [|arg args IH]; intros c; [done|].
  cbn zeta in *. cbn [fold_left]. by destruct (IH (NewConf_arg c arg)) as (-> & -> & -> & ->).
Qed.

(** X1. A sequence of [Add] calls on any map keeps what was there: the old
    keys stay in front, in their order, followed by the added keys in call
    order; reading a key gives the value of its last [Add], and the old
    value (or nil) for a key that was not added. *)
Theorem adds_extends (ops : list (string * value)) (sm : SortedMap) :
  keys (adds ops sm) = (keys sm ++ ops.*1)%list
  ∧ ∀ k, index (internal (adds ops sm)) k =
         match last_added k ops with
         | Some v => v
         | None => index (internal sm) k
         end.
Proof.
  split; [apply keys_adds|].
  intros k. unfold index. rewrite internal_adds.
  by destruct (last_added k ops).
Qed.

(** X2. The configuration [NewConf] builds for a component: its title and
    server id are the given title, [args] holds each descriptor's default
    under its name and [argTypes] its control, both in the order the
    descriptors were given, and there is exactly one story, "Default",
    with no arguments. *)
Theorem NewConf_shape (title : string) (args : list Arg) :
  let c := NewConf title args in
  Title c = title
  ∧ Parameters c = [("id", VString title)]
  ∧ Args c = adds ((λ a, (Name a, Value a)) <$> args) NewSortedMap
  ∧ ArgTypes c =
    adds ((λ a, (Name a, VObject [("control", Control a)])) <$> args) NewSortedMap
  ∧ keys (Args c) = Name <$> args
  ∧ keys (ArgTypes c) = Name <$> args
  ∧ Stories c = [{| Story_Name := "Default"; Story_Args := NewSortedMap |}].
Proof.
  cbn zeta. unfold NewConf, AddStory. cbn [Title Parameters Args ArgTypes Stories].
  set (c0 := {| Title := title; Parameters := [("id", VString title)];
                Args := NewSortedMap; ArgTypes := NewSortedMap; Stories := [] |}).
  destruct (fold_NewConf_arg args c0) as (-> & -> & -> & ->).
  rewrite Title_fold_NewConf_arg, !keys_adds, <- !list_fmap_compose.
  repeat split.
Qed.

(** X3. When the descriptors of a component have pairwise distinct names
    and [encoding/json] can encode every name and default value,
    [MarshalJSON] of the configuration's [args] map is the JSON object
    literal that lists every descriptor's name with its default value, in
    the order the descriptors were given. *)
Theorem NewConf_args_json (marshal : value → option string)
    (title : string) (args : list Arg)
    (Hnames : NoDup (Name <$> args))
    (Hencodable : Forall (λ a, is_Some (marshal (VString (Name a)))
                               ∧ is_Some (marshal (Value a))) args) :
  object_json marshal ((λ a, (Name a, Value a)) <$> args)
  = Some (MarshalJSON marshal (Args (NewConf title args))).
Proof.
  unfold object_json. rewrite mapM_member_json by (by apply Forall_fmap).
  cbv [mbind option_bind]. f_equal.
  unfold NewConf, AddStory. cbn [Args].
  match goal with
  | |- context [fold_left NewConf_arg args ?c0] =>
      destruct (fold_NewConf_arg args c0) as (_ & _ & -> & _)
  end.
  rewrite MarshalJSON_members, keys_adds. cbn [Args keys NewSortedMap app].
  match goal with
  | |- context [?f <$> ((λ a, (Name a, Value a)) <$> args).*1] =>
      replace (f <$> ((λ a, (Name a, Value a)) <$> args).*1)
        with ((λ a, (Name a, Value a)) <$> args); [done|]
  end.
  rewrite <- !list_fmap_compose. apply list_fmap_ext.
  intros i a Hi. cbn. f_equal. unfold index. rewrite internal_adds.
  rewrite (last_added_NoDup _ (Name a) (Value a)); [done| |].
  - by rewrite <- list_fmap_compose.
  - apply list_elem_of_fmap. exists a. split; [done|].
    by apply list_elem_of_lookup_2 in Hi.
Qed.

Lemma NewConf_args_json_witness :
  object_json marshal_plain [("title", VString "Hello"); ("open", VBool true)]
  = Some (MarshalJSON marshal_plain
            (Args (NewConf "card" [TextArg "title" "Hello"; BooleanArg "open" true]))).
Proof.
  apply (NewConf_args_json marshal_plain "card"
           [TextArg "title" "Hello"; BooleanArg "open" true]).
  - apply (bool_decide_unpack _). vm_compute. exact I.
  - repeat constructor; vm_compute; eauto.
Defined.

(** ** The registry *)

Lemma Config_register components sh name :
  Config (register components sh) !! name =
  match registered_as name components with
  | Some (f, args) => Some (NewConf name args)
  | None => Config sh !! name
  end.
Proof.
  revert sh. induction components as [|[[name' f] args] components IH];
    intros sh; [done|].
  unfold register in *. cbn [fold_left registered_as]. rewrite IH.
  destruct (registered_as name components) as [[f' args']|]; [done|].
  cbn. destruct (decide (name = name')) as [->|Hne].
  - by rewrite lookup_insert_eq.
  - by rewrite lookup_insert_ne.
Qed.

(** X4. In a registry filled by [AddComponent] calls, a name maps to the
    configuration and to the handler of the last registration under that
    name (an earlier registration of the same name is replaced), a name
    never registered maps to nothing, and the configurations and the
    handlers are kept under the same set of names. *)
Theorem register_lookup (components : list (string * GoFunc * list Arg))
    (name : string) :
  let sh := register components New in
  Config sh !! name = (λ c, NewConf name c.2) <$> registered_as name components
  ∧ Handlers sh !! name =
    (λ c, NewHandler name c.1 c.2) <$> registered_as name components
  ∧ dom (Config sh) = dom (Handlers sh).
Proof.
  cbn zeta. rewrite Config_register, Handlers_register.
  split; [by destruct (registered_as name components) as [[f args]|]|].
  split; [by destruct (registered_as name components) as [[f args]|]|].
  apply set_eq. intros k. rewrite !elem_of_dom, Config_register, Handlers_register.
  destruct (registered_as k components) as [[f args]|]; cbn.
  - split; eauto.
  - rewrite !lookup_empty. done.
Qed.

(** ** Dispatch and handlers *)

Lemma mapM_M_length {A B} (g : A → M B) (l : list A) w out w' :
  mapM g l w = (Returns out, w') → length out = length l.
Proof.
  revert w out w'. induction l as [|a l IH]; intros w out w'; cbn.
  - by intros [= <- _].
  - unfold mbind, M_bind at 1.
    destruct (g a w) as [[b|] w1]; [|done].
    unfold mbind, M_bind at 1.
    destruct (mapM g l w1) as [[bs|] w2] eqn:Hl; [|done].
    intros [= <- _]. cbn. f_equal. by eapply IH.
Qed.

Lemma mapM_TextArg (q : url_Values) (l : list (string * string)) w :
  mapM (λ arg, Get arg q) ((λ p, TextArg p.1 p.2) <$> l) w =
  (Returns ((λ p, VString (Values_Get q p.1)) <$> l), w).
Proof.
  induction l as [|p l IH]; [done|].
  cbn. unfold mbind, M_bind at 1. cbn.
  unfold mbind, M_bind at 1. cbn in IH. by rewrite IH.
Qed.

(** X5. [executeTemplate] never touches the cells.  The constructor is
    entered exactly once, with the given values, when their number is the
    constructor's number of parameters and they are assignable to the
    parameter types, whatever the constructor then does; in every other
    case it is not entered. *)
Theorem executeTemplate_invocations (name : string) (fn : GoFunc)
    (values : list value) (w : world) :
  let w' := (executeTemplate name fn values w).2 in
  cells w' = cells w
  ∧ invoked w' =
    (invoked w ++ if decide (NumIn fn = length values)
                  then if Assignable fn values then [values] else []
                  else [])%list.
Proof.
  cbn zeta. destruct (decide (NumIn fn = length values)) as [Heq|Hne].
  - destruct (Assignable fn values) eqn:Hok.
    + rewrite executeTemplate_call by done. cbn zeta.
      destruct (Call fn values) as [[|v [|v' results]]|]; try done;
        by destruct v.
    + rewrite executeTemplate_rejected by done. cbn. by rewrite app_nil_r.
  - rewrite executeTemplate_mismatch by done. cbn. by rewrite app_nil_r.
Qed.

(** X6. Whenever the number of values differs from the constructor's
    number of parameters, [executeTemplate] returns, without calling the
    constructor, the error whose text gives the function value, the
    number of parameters and the number of values provided. *)
Theorem executeTemplate_count_mismatch (name : string) (fn : GoFunc)
    (values : list value) (w : world)
    (Hcount : NumIn fn ≠ length values) :
  ∃ err, executeTemplate name fn values w = (Returns (inr err), w)
    ∧ Error err =
      "templ-storybook: component " +:+ Sprint_s fn +:+ " expects "
      +:+ pretty (NumIn fn) +:+ " argument, but " +:+ pretty (length values)
      +:+ " were provided".
Proof.
  eexists. split; [by apply executeTemplate_mismatch | reflexivity].
Qed.

Lemma executeTemplate_count_mismatch_witness :
  ∃ err, executeTemplate "greeting" greeting [VString "Ada"] world0
         = (Returns (inr err), world0)
    ∧ Error err =
      "templ-storybook: component " +:+ Sprint_s greeting +:+ " expects "
      +:+ pretty 2%nat +:+ " argument, but " +:+ pretty 1%nat
      +:+ " were provided".
Proof.
  apply (executeTemplate_count_mismatch "greeting" greeting [VString "Ada"] world0).
  cbn. lia.
Defined.

(** X7. A component registered with a number of descriptors other than
    its constructor's number of parameters cannot be previewed: for every
    request, once the descriptors have extracted their values, the handler
    answers 500 with the arity error and the constructor is not called;
    the only other outcome is a panic raised by a descriptor. *)
Theorem NewHandler_descriptor_count (name : string) (f : GoFunc)
    (args : list Arg) (r : Request) (w : world)
    (Hcount : length args ≠ NumIn f) :
  match mapM (λ arg, Get arg (URL_Query r)) args w with
  | (Returns _, w1) =>
      NewHandler name f args r w =
      (Returns {| StatusCode := 500;
                  Body := Error (errArgumentCount (Sprint_s f) (NumIn f) (length args))
                          +:+ newline |}, w1)
  | (Panics, w1) => NewHandler name f args r w = (Panics, w1)
  end.
Proof.
  rewrite NewHandler_run.
  destruct (mapM (M:=M) _ args w) as [[argv|] w1] eqn:Hargv; [|done].
  apply mapM_M_length in Hargv.
  rewrite executeTemplate_mismatch by (rewrite Hargv; congruence).
  by rewrite Hargv.
Qed.

Lemma NewHandler_descriptor_count_witness :
  NewHandler "greeting" greeting [TextArg "first" "Ada"]
    {| URL_Path := "/storybook_preview/greeting";
       URL_Query := {[ "first" := ["Grace"] ]} |} world0 =
  (Returns {| StatusCode := 500;
              Body := Error (errArgumentCount (Sprint_s greeting) 2 1) +:+ newline |},
   world0).
Proof.
  apply (NewHandler_descriptor_count "greeting" greeting [TextArg "first" "Ada"]
           {| URL_Path := "/storybook_preview/greeting";
              URL_Query := {[ "first" := ["Grace"] ]} |} world0).
  cbn. lia.
Defined.

(** X8. The handler of a component whose descriptors are all text
    descriptors, as many as the constructor has parameters, hands the
    constructor the first query value of each descriptor's name (the empty
    string for an absent one) in the order of the descriptors; the
    defaults play no part.  When these strings are assignable to the
    parameter types the constructor is entered exactly once with them,
    otherwise the handler panics without entering it.  When the call
    returns a single renderable value the answer is 200 with its output. *)
Theorem NewHandler_text_args (name : string) (f : GoFunc)
    (l : list (string * string)) (r : Request) (w : world)
    (Hcount : NumIn f = length l) :
  let argv := (λ p, VString (Values_Get (URL_Query r) p.1)) <$> l in
  let w' := {| cells := cells w; invoked := (invoked w ++ [argv])%list |} in
  let serve := NewHandler name f ((λ p, TextArg p.1 p.2) <$> l) r w in
  (if Assignable f argv then serve.2 = w' else serve = (Panics, w))
  ∧ ∀ component, Call f argv = Returns [VComponent component] →
      serve = (Returns {| StatusCode := 200; Body := Render component |}, w').
Proof.
  cbn zeta. rewrite NewHandler_run, mapM_TextArg.
  set (argv := (λ p, VString (Values_Get (URL_Query r) p.1)) <$> l).
  assert (NumIn f = length argv) as Hlen by (unfold argv; by rewrite length_fmap).
  destruct (Assignable f argv) eqn:Hok.
  - rewrite executeTemplate_call by done. cbn zeta. split.
    + destruct (Call f argv) as [[|v [|v' results]]|]; try done; by destruct v.
    + intros component ->. done.
  - rewrite executeTemplate_rejected by done. split; [done|].
    intros component Hcall. apply Call_Returns in Hcall as [Hyes _]. congruence.
Qed.

Lemma NewHandler_text_args_witness :
  let r := {| URL_Path := "/storybook_preview/greeting";
              URL_Query := {[ "last" := ["Hopper"]; "first" := ["Grace"; "Ada"] ]} |} in
  let argv := [VString "Grace"; VString "Hopper"] in
  let w' := {| cells := ∅; invoked := [argv] |} in
  let serve := NewHandler "greeting" greeting
                 [TextArg "first" "x"; TextArg "last" "y"] r world0 in
  serve.2 = w'
  ∧ ∀ component, Call greeting argv = Returns [VComponent component] →
      serve = (Returns {| StatusCode := 200; Body := Render component |}, w').
Proof.
  pose proof (NewHandler_text_args "greeting" greeting
                [("first", "x"); ("last", "y")]
                {| URL_Path := "/storybook_preview/greeting";
                   URL_Query := {[ "last" := ["Hopper"]; "first" := ["Grace"; "Ada"] ]} |}
                world0 eq_refl) as Hserve.
  vm_compute in Hserve. vm_compute. exact Hserve.
Defined.

(** X9. A boolean descriptor extracts [true] exactly when the query holds
    the descriptor's name and the first value under it is the five bytes
    "true"; it never fails and leaves the request state alone. *)
Theorem BooleanArg_Get_true_iff (name : string) (default : bool)
    (q : url_Values) (w : world) :
  ∃ b, Get (BooleanArg name default) q w = (Returns (VBool b), w)
    ∧ (b = true ↔ ∃ rest, q !! name = Some ("true" :: rest)).
Proof.
  eexists. split; [reflexivity|].
  rewrite bool_decide_eq_true. unfold Values_Get.
  destruct (q !! name) as [[|v rest]|].
  - split; [done | by intros [? ?]].
  - split; [intros ->; eauto | by intros [? [= -> _]]].
  - split; [done | by intros [? ?]].
Qed.

(** ** Object descriptors and serialization errors *)

(** X10. An object descriptor reads and writes one cell only: when the
    cell exists, the value it extracts is what the decoder left for the
    cell and is the cell's content afterwards, every other cell and the
    log of constructor calls are as before; when the pointer leads to no
    cell, the extraction panics and changes nothing. *)
Theorem ObjectArg_Get_cell
    (checkValid : string → option error)
    (decode : string → value → value * option error)
    (name : string) (v : value) (valuePtr : nat) (q : url_Values) (w : world) :
  match cells w !! valuePtr with
  | Some target =>
      ∃ w', Get (ObjectArg checkValid decode name v valuePtr) q w
            = (Returns (Unmarshal checkValid decode (Values_Get q name) target).1, w')
        ∧ cells w' !! valuePtr
          = Some (Unmarshal checkValid decode (Values_Get q name) target).1
        ∧ (∀ p, p ≠ valuePtr → cells w' !! p = cells w !! p)
        ∧ invoked w' = invoked w
  | None => Get (ObjectArg checkValid decode name v valuePtr) q w = (Panics, w)
  end.
Proof.
  cbn [Get ObjectArg]. unfold ObjectArg_Get.
  destruct (cells w !! valuePtr) as [target|]; [|done].
  destruct (Unmarshal checkValid decode (Values_Get q name) target)
    as [target' err].
  eexists. split; [reflexivity|]. cbn. split; [by rewrite lookup_insert_eq|].
  split; [|done]. intros p Hp. by rewrite lookup_insert_ne.
Qed.

(** X11. What an object descriptor extracted for one request stays in
    the cell: a later request whose raw string is not valid JSON is
    answered with the value extracted for the earlier request. *)
Theorem ObjectArg_Get_persists
    (checkValid : string → option error)
    (decode : string → value → value * option error)
    (name : string) (v : value) (valuePtr : nat) (q1 q2 : url_Values)
    (w w1 : world) (v1 : value) (err : error)
    (Hfirst : Get (ObjectArg checkValid decode name v valuePtr) q1 w
              = (Returns v1, w1))
    (Hinvalid : checkValid (Values_Get q2 name) = Some err) :
  Get (ObjectArg checkValid decode name v valuePtr) q2 w1 = (Returns v1, w1).
Proof.
  cbn [Get ObjectArg] in *. unfold ObjectArg_Get in *.
  destruct (cells w !! valuePtr) as [target|]; [|done].
  destruct (Unmarshal checkValid decode (Values_Get q1 name) target)
    as [target' err1].
  injection Hfirst as <- <-. cbn [cells invoked].
  rewrite lookup_insert_eq. unfold Unmarshal. rewrite Hinvalid.
  by rewrite insert_insert_eq.
Qed.

Lemma ObjectArg_Get_persists_witness :
  Get (ObjectArg checkValid_int decode_int "size" (VInt 1) 0)
      {[ "size" := ["oops"] ]}
      {| cells := {[ 0%nat := VInt 12 ]}; invoked := [] |} =
  (Returns (VInt 12), {| cells := {[ 0%nat := VInt 12 ]}; invoked := [] |}).
Proof.
  apply (ObjectArg_Get_persists checkValid_int decode_int "size" (VInt 1) 0
           {[ "size" := ["12"] ]} {[ "size" := ["oops"] ]}
           {| cells := {[ 0%nat := VInt 1 ]}; invoked := [] |} _ _
           (errExternal "invalid character looking for beginning of value"));
    vm_compute; reflexivity.
Defined.

(** X12. [MarshalJSON] reports no error when a value cannot be encoded:
    the member is written as its key and the colon with nothing after it. *)
Theorem MarshalJSON_unencodable_value (marshal : value → option string)
    (k : string) (v : value) (text : string)
    (Hkey : marshal (VString k) = Some text)
    (Hvalue : marshal v = None) :
  MarshalJSON marshal (Add k v NewSortedMap) =
  "{" +:+ text +:+ newline +:+ ":" +:+ "}".
Proof.
  unfold MarshalJSON, WriteRune, Add, NewSortedMap.
  cbn [keys internal app MarshalJSON_range length].
  unfold index. rewrite lookup_insert_eq. cbn [default].
  unfold Encode, WriteRune, id. rewrite Hkey, Hvalue.
  change (0 <? Z.of_nat 1 - 1) with false. cbv iota.
  change ("" +:+ "{") with "{". by rewrite !string_app_assoc.
Qed.

Lemma MarshalJSON_unencodable_value_witness :
  MarshalJSON marshal_plain
    (Add "view" (VComponent {| Render := "" |}) NewSortedMap) =
  "{" +:+ (dq +:+ "view" +:+ dq) +:+ newline +:+ ":" +:+ "}".
Proof.
  apply (MarshalJSON_unencodable_value marshal_plain "view"
           (VComponent {| Render := "" |}) (dq +:+ "view" +:+ dq));
    reflexivity.
Defined.

(** ** More on the build pipeline *)

(** X13. An installation that stops because [npx] is not on the path has
    already created the working directory and run nothing; from then on
    [installStorybook] finds the directory, reports success and never runs
    the initializer, whether or not [npx] has become available. *)
Theorem installStorybook_failed_then_skipped (env1 env2 : Env) (d : Disk)
    (err : error)
    (Habsent : path_present d = false)
    (Hstat1 : Stat_fault env1 = None)
    (Hmkdir : Mkdir_Path_fault env1 = None)
    (Hnpx : LookPath_npx env1 = Some err)
    (Hstat2 : Stat_fault env2 = None) :
  let first := installStorybook env1 d in
  first = (set_path_present true d,
           Some (errWrap "templ-storybook: cannot install storybook, cannot find npx on the path, check that Node.js is installed" err))
  ∧ installStorybook env2 first.1 = (first.1, None)
  ∧ ran first.1 = ran d.
Proof.
  cbn zeta.
  assert (installStorybook env1 d =
          (set_path_present true d,
           Some (errWrap "templ-storybook: cannot install storybook, cannot find npx on the path, check that Node.js is installed" err)))
    as -> by (unfold installStorybook; by rewrite Hstat1, Habsent, Hmkdir, Hnpx).
  cbn [fst]. split; [done|]. split; [|done].
  unfold installStorybook. by rewrite Hstat2.
Qed.

Lemma installStorybook_failed_then_skipped_witness :
  let first := installStorybook npx_missing fresh in
  first = (set_path_present true fresh,
           Some (errWrap "templ-storybook: cannot install storybook, cannot find npx on the path, check that Node.js is installed"
                   (errExternal "exec: npx: executable file not found in $PATH")))
  ∧ installStorybook (quiet []) first.1 = (first.1, None)
  ∧ ran first.1 = ran fresh.
Proof.
  apply (installStorybook_failed_then_skipped npx_missing (quiet []) fresh
           (errExternal "exec: npx: executable file not found in $PATH"));
    reflexivity.
Defined.

(** X14. After a successful stage 1, a cancellation seen at the first or
    the second check ends [Build] without running any command: seen at
    the first check, [Build] returns no error and leaves the disk as stage
    1 left it; seen at the second, it returns what stage 2 returned, so
    stage 3 is skipped even when the configuration has changed. *)
Theorem Build_cancelled
    (hash : gmap string string → string) (encode_Conf : Conf → string + error)
    (Quote : string → string)
    (sh : Storybook) (env : Env) (d d1 : Disk)
    (Hinstall : installStorybook env d = (d1, None))
    (Hcancel : ctx_Err_1 env = true ∨ ctx_Err_2 env = true) :
  let result := Build hash encode_Conf Quote sh env d in
  let configured := configureStorybook hash encode_Conf Quote sh env d1 in
  ran result.1 = ran d1
  ∧ (ctx_Err_1 env = true → result = (d1, None))
  ∧ (ctx_Err_1 env = false → result = (configured.1, configured.2.2)).
Proof.
  cbn zeta. unfold Build. rewrite Hinstall.
  pose proof (configureStorybook_ran hash encode_Conf Quote sh env d1) as Hran.
  destruct (ctx_Err_1 env) eqn:H1; [done|].
  destruct Hcancel as [?|H2]; [done|]. rewrite H2.
  destruct (configureStorybook hash encode_Conf Quote sh env d1)
    as [d2 [changed [err|]]]; done.
Qed.

Lemma Build_cancelled_witness :
  let env := cancelled_after_configure [button_conf] in
  let result := Build hash_files encode_title quote_plain button_book env installed in
  let configured := configureStorybook hash_files encode_title quote_plain
                      button_book env installed in
  ran result.1 = ran installed
  ∧ (ctx_Err_1 env = true → result = (installed, None))
  ∧ (ctx_Err_1 env = false → result = (configured.1, configured.2.2)).
Proof.
  apply (Build_cancelled hash_files encode_title quote_plain button_book
           (cancelled_after_configure [button_conf]) installed installed).
  - reflexivity.
  - right. reflexivity.
Defined.

(** X15. The first configuration pass over a working directory without a
    stories directory always reports a change, provided the directory
    hash is never the empty string and the pass and its second hash do
    not fail. *)
Theorem configureStorybook_first_time
    (hash : gmap string string → string) (encode_Conf : Conf → string + error)
    (Quote : string → string)
    (sh : Storybook) (env : Env) (d d' : Disk) (changed : bool)
    (Hhash : ∀ files, hash files ≠ "")
    (Hnone : stories d = None)
    (Hafter : HashDir_after_fault env = false)
    (Hrun : configureStorybook hash encode_Conf Quote sh env d
            = (d', (changed, None))) :
  changed = true.
Proof.
  apply configureStorybook_flag in Hrun as (files' & _ & ->).
  rewrite Hnone, Hafter. rewrite bool_decide_eq_false_2; [done|].
  intros Heq. by eapply Hhash.
Qed.

Lemma hash_files_nonempty files : hash_files files ≠ "".
Proof. unfold hash_files. by rewrite !string_app_cons. Qed.

Lemma configureStorybook_first_time_witness :
  (configureStorybook hash_files encode_title quote_plain button_book
     (quiet [button_conf]) installed).2.1 = true.
Proof.
  apply (configureStorybook_first_time hash_files encode_title quote_plain
           button_book (quiet [button_conf]) installed
           (configureStorybook hash_files encode_title quote_plain button_book
              (quiet [button_conf]) installed).1).
  - apply hash_files_nonempty.
  - reflexivity.
  - reflexivity.
  - vm_compute. reflexivity.
Defined.

(** X16. A configuration pass over components whose titles contain no
    slash, when it ends without error, leaves in the stories directory
    exactly one file per component visited, named after its title and
    holding its encoding, whatever the directory held before; it has
    written the preview script, it has written no story file outside the
    stories directory, and it has run no command. *)
Theorem configureStorybook_result
    (hash : gmap string string → string) (encode_Conf : Conf → string + error)
    (Quote : string → string)
    (sh : Storybook) (env : Env) (d d' : Disk) (changed : bool)
    (Htitles : Forall (λ c, has_slash (Title c) = false) (range_Config env))
    (Hrun : configureStorybook hash encode_Conf Quote sh env d
            = (d', (changed, None))) :
  stories d' = Some (stories_written encode_Conf (reverse (range_Config env)))
  ∧ preview_js d' = Some previewJS
  ∧ outside d' = outside d
  ∧ path_present d' = true
  ∧ ran d' = ran d.
Proof. by apply configureStorybook_success in Hrun as [-> _]. Qed.

Lemma configureStorybook_result_witness :
  let d' := (configureStorybook hash_files encode_title quote_plain button_book
               (quiet [card_conf; button_conf]) stale).1 in
  stories d' = Some (stories_written encode_title (reverse [card_conf; button_conf]))
  ∧ preview_js d' = Some previewJS
  ∧ outside d' = ∅
  ∧ path_present d' = true
  ∧ ran d' = [].
Proof.
  apply (configureStorybook_result hash_files encode_title quote_plain button_book
           (quiet [card_conf; button_conf]) stale _ true).
  - repeat constructor.
  - vm_compute. reflexivity.
Defined.

(** X17. For a configuration pass over components whose titles contain no
    slash that ends without error, the change flag is the comparison of
    two hashes: that of the stories directory before the pass (the empty
    string when there was none) and that of the files the pass wrote,
    one per title (the empty string when hashing them failed); the flag
    is set exactly when they differ. *)
Theorem configureStorybook_change_flag
    (hash : gmap string string → string) (encode_Conf : Conf → string + error)
    (Quote : string → string)
    (sh : Storybook) (env : Env) (d d' : Disk) (changed : bool)
    (Htitles : Forall (λ c, has_slash (Title c) = false) (range_Config env))
    (Hrun : configureStorybook hash encode_Conf Quote sh env d
            = (d', (changed, None))) :
  let before := match stories d with Some files => hash files | None => "" end in
  let after :=
    if HashDir_after_fault env then ""
    else hash (stories_written encode_Conf (reverse (range_Config env))) in
  changed = true ↔ before ≠ after.
Proof.
  cbn zeta. apply configureStorybook_success in Hrun as [_ ->]; [|done].
  rewrite negb_true_iff, bool_decide_eq_false. done.
Qed.

Lemma configureStorybook_change_flag_witness :
  let before := hash_files {[ "old.stories.json" := "{}" ]} in
  let after := hash_files (stories_written encode_title (reverse [button_conf])) in
  (configureStorybook hash_files encode_title quote_plain button_book
     (quiet [button_conf]) stale).2 = (true, None)
  ∧ (true = true ↔ before ≠ after).
Proof.
  split; [vm_compute; reflexivity|].
  apply (configureStorybook_change_flag hash_files encode_title quote_plain
           button_book (quiet [button_conf]) stale
           (configureStorybook hash_files encode_title quote_plain button_book
              (quiet [button_conf]) stale).1 true).
  - repeat constructor.
  - vm_compute. reflexivity.
Defined.

(** X18. A configuration pass that fails before the preview script is
    written reports no change, leaves the preview script as it was and
    runs no command. *)
Theorem configureStorybook_error_flag
    (hash : gmap string string → string) (encode_Conf : Conf → string + error)
    (Quote : string → string)
    (sh : Storybook) (env : Env) (d d' : Disk) (changed : bool) (err : error)
    (Hwrite : WriteFile_fault env = None)
    (Hrun : configureStorybook hash encode_Conf Quote sh env d
            = (d', (changed, Some err))) :
  changed = false ∧ preview_js d' = preview_js d ∧ ran d' = ran d.
Proof. by eapply configureStorybook_failure. Qed.

Lemma configureStorybook_error_flag_witness :
  let env := create_fails "storybook-server/stories/button.stories.json"
               [card_conf; button_conf] in
  let run := configureStorybook hash_files encode_title quote_plain
               button_book env installed in
  run.2.1 = false ∧ preview_js run.1 = preview_js installed
  ∧ ran run.1 = ran installed.
Proof.
  apply (configureStorybook_error_flag hash_files encode_title quote_plain
           button_book
           (create_fails "storybook-server/stories/button.stories.json"
              [card_conf; button_conf]) installed _ _
           (errWrap ("failed to create config file to "
                     +:+ quote_plain "storybook-server/stories/button.stories.json")
                    (errExternal "permission denied"))).
  - reflexivity.
  - vm_compute. reflexivity.
Defined.

(** X19. The loop over the registry stops at the first file [os.Create]
    cannot create.  When the components visited before it have titles
    without a slash, their files are written to the stories directory,
    those of the components after it are not, and the error is
    [failed to create config file to], followed by the name [path.Join]
    made for the file as [%q] prints it, wrapping the error of
    [os.Create]. *)
Theorem write_stories_stops_at_failure
    (encode_Conf : Conf → string + error) (Quote : string → string)
    (sh : Storybook) (env : Env)
    (cs1 : list Conf) (c : Conf) (cs2 : list Conf) (err : error) (d : Disk)
    (Htitles : Forall (λ c', has_slash (Title c') = false) cs1)
    (Hbefore : Forall (λ c', Create_fault env (story_name sh c') = None
                             ∧ ∃ text, encode_Conf c' = inl text) cs1)
    (Hdir : stories d = Some ∅)
    (Hfail : Create_fault env (story_name sh c) = Some err) :
  write_stories encode_Conf Quote sh env (cs1 ++ c :: cs2) d =
  (set_stories (Some (stories_written encode_Conf (reverse cs1))) d,
   Some (errWrap ("failed to create config file to "
                  +:+ Quote (story_name sh c)) err)).
Proof.
  rewrite (write_stories_stops encode_Conf Quote sh env cs1 c cs2 err d ∅)
    by done.
  by rewrite (right_id_L ∅ (∪)).
Qed.

Lemma write_stories_stops_at_failure_witness :
  write_stories encode_title quote_plain button_book
    (create_fails "storybook-server/stories/button.stories.json" [])
    ([card_conf] ++ button_conf :: [card_conf]) (set_stories (Some ∅) installed) =
  (set_stories (Some {[ "card.stories.json" :=
                          "{" +:+ dq +:+ "title" +:+ dq +:+ ":" +:+ dq +:+ "card"
                          +:+ dq +:+ "}" +:+ newline ]}) installed,
   Some (errWrap ("failed to create config file to " +:+ dq
                  +:+ "storybook-server/stories/button.stories.json" +:+ dq)
                 (errExternal "permission denied"))).
Proof.
  pose proof (write_stories_stops_at_failure encode_title quote_plain button_book
           (create_fails "storybook-server/stories/button.stories.json" [])
           [card_conf] button_conf [card_conf] (errExternal "permission denied")
           (set_stories (Some ∅) installed)) as H.
  vm_compute in H. vm_compute. apply H.
  - repeat constructor.
  - repeat constructor. eexists. reflexivity.
  - reflexivity.
  - reflexivity.
Defined.

(** X20. For a registry filled by [AddComponent] calls with names that
    contain no slash, the stories directory a configuration pass leaves
    does not depend on the order in which the loop visits the registry,
    nor on the disk the pass started from: any two passes that end
    without error leave the same files. *)
Theorem configureStorybook_order_independent
    (hash : gmap string string → string) (encode_Conf : Conf → string + error)
    (Quote : string → string)
    (components : list (string * GoFunc * list Arg))
    (env1 env2 : Env) (d1 d2 d1' d2' : Disk) (changed1 changed2 : bool)
    (Hnames : Forall (λ c : string * GoFunc * list Arg, has_slash c.1.1 = false)
                components)
    (Hvisit1 : range_Config env1 ≡ₚ
               (map_to_list (Config (register components New))).*2)
    (Hvisit2 : range_Config env2 ≡ₚ
               (map_to_list (Config (register components New))).*2)
    (Hrun1 : configureStorybook hash encode_Conf Quote
               (register components New) env1 d1
             = (d1', (changed1, None)))
    (Hrun2 : configureStorybook hash encode_Conf Quote
               (register components New) env2 d2
             = (d2', (changed2, None))) :
  stories d1' = stories d2'.
Proof.
  apply configureStorybook_success in Hrun1 as [-> _];
    [|by eapply visit_plain].
  apply configureStorybook_success in Hrun2 as [-> _];
    [|by eapply visit_plain].
  cbn [stories]. f_equal. apply stories_written_perm.
  - rewrite reverse_Permutation, Hvisit1. apply NoDup_story_bases.
  - by rewrite !reverse_Permutation, Hvisit1, Hvisit2.
Qed.

Lemma configureStorybook_order_independent_witness :
  stories (configureStorybook hash_files encode_title quote_plain two_book
             (quiet [card_conf; button_conf]) installed).1 =
  stories (configureStorybook hash_files encode_title quote_plain two_book
             (quiet [button_conf; card_conf]) stale).1.
Proof.
  assert (Hlist : (map_to_list (Config two_book)).*2 = [button_conf; card_conf]
                  ∨ (map_to_list (Config two_book)).*2 = [card_conf; button_conf])
    by (vm_compute; first [by left | by right]).
  apply (configureStorybook_order_independent hash_files encode_title quote_plain
           [("button", button, [TextArg "text" "Click"]);
            ("card", button, [TextArg "title" "Hello"; BooleanArg "open" true])]
           (quiet [card_conf; button_conf]) (quiet [button_conf; card_conf])
           installed stale _ _ true true).
  - repeat constructor.
  - change (register _ New) with two_book. cbn [range_Config quiet].
    destruct Hlist as [-> | ->]; [apply perm_swap | reflexivity].
  - change (register _ New) with two_book. cbn [range_Config quiet].
    destruct Hlist as [-> | ->]; [reflexivity | apply perm_swap].
  - vm_compute. reflexivity.
  - vm_compute. reflexivity.
Defined.
